(** * parallel-limiter: a shallow embedding of [index.js]

    The module exports three asynchronous entry points, [noLimiter.schedule],
    [allSettledParallelLimited] and [ParallelLimiter.schedule], plus the timer
    helper [asyncTimeout].  All of them run on the single-threaded JavaScript
    event loop: an [async] function executes synchronously up to its next
    [await], and is resumed later by the event loop.  We model

    - a synchronous segment as a computation in a state-and-exception monad
      [js]: the state is the part of the heap the segment can touch, the
      exception is a JavaScript [throw];
    - an [async] call as a task with a program point (the [await] at which it
      is suspended, or its settled outcome);
    - the event loop as a labelled transition system whose events are the
      resumptions the loop may perform (a timer fires, a promise settles, a
      caller starts a new call).  Any interleaving of the program is a list
      of such events.

    Operations and loggers are opaque callbacks, and neither touches the
    limiter or the batch it is used with.  An operation is described by what
    its invocation yields.  A logger is a value; when it is a function, what
    a call to it does is given for [ParallelLimiter] by [sinks], which says
    for each function, each message and the calls made before whether the
    call returns or throws.  The logger of [allSettledParallelLimited] is
    taken as the specification describes a sink, side-effect only: when it
    is a function, it returns.
    Capacities, counters and delays are integers. *)

From stdpp Require Import base relations list strings pretty gmap.
From Stdlib Require Import ZArith Lia.

Set Warnings "-register-all".
Local Open Scope Z_scope.

(** ** JavaScript values

    Only the distinctions the code observes are kept: nullish values (for
    [?.], [??], default parameters and property reads), callability (for the
    logger), the [message] of an error, and own properties.  A function is
    identified by [id]; it may carry own properties like any object. *)
Inductive jsval : Type :=
| JUndefined
| JNull
| JNum (z : Z)
| JStr (s : string)
| JError (message : string)
| JFun (id : nat) (props : list (string * jsval))
| JObj (props : list (string * jsval)).

Fixpoint assoc (k : string) (ps : list (string * jsval)) : jsval :=
  match ps with
  | [] => JUndefined
  | (k', v) :: ps' => if String.eqb k k' then v else assoc k ps'
  end.

Definition nullish (v : jsval) : bool :=
  match v with JUndefined | JNull => true | _ => false end.

Definition callable (v : jsval) : bool :=
  match v with JFun _ _ => true | _ => false end.

(** The error V8 raises for [v.k] when [v] is [undefined] or [null], and for
    calling a value that is not a function. *)
Definition TypeError_read (v : jsval) (k : string) : jsval :=
  JError ("Cannot read properties of "
          +:+ match v with JNull => "null" | _ => "undefined" end
          +:+ " (reading '" +:+ k +:+ "')").
Definition TypeError_call (callee : string) : jsval :=
  JError (callee +:+ " is not a function").

(** [v.k] on a value that is not nullish. *)
Definition own_prop (v : jsval) (k : string) : jsval :=
  match v with
  | JError m => if String.eqb k "message" then JStr m else JUndefined
  | JFun _ ps | JObj ps => assoc k ps
  | _ => JUndefined
  end.

(** [v?.k] *)
Definition opt_chain (v : jsval) (k : string) : jsval :=
  if nullish v then JUndefined else own_prop v k.

(** [a ?? b] *)
Definition nullish_coalesce (a b : jsval) : jsval :=
  if nullish a then b else a.

(** A parameter default [x = d] applies exactly when the argument is
    [undefined]. *)
Definition default_param (arg d : jsval) : jsval :=
  match arg with JUndefined => d | _ => arg end.

(** The default logger [() => {}] of both entry points. *)
Definition noop_id : nat := 0%nat.
Definition noop_logger : jsval := JFun noop_id [].

(** ** Diagnostics

    One constructor per template literal passed to the logger; the arguments
    are the interpolated expressions, in order. *)
Inductive diag : Type :=
| MaxParallelReached (running retry : Z)
    (* `Max parallel count reached (${runningCount}), waiting for ${retryMs}ms` *)
| StartedPromise (running max : Z)
    (* `Started Promise (${runningCount}/${maxParallel} running)` *)
| FinalizedPromise (running max : Z)
    (* `Finalized Promise (${runningCount}/${maxParallel} running)` *)
| FailedPromise (running max : Z) (message : jsval)
    (* `Failed Promise (${runningCount}/${maxParallel} running): ${e.message}` *)
| RunningJobs (i count : nat) (running retry : Z)
    (* `Running ${i}/${jobs.length} jobs, max parallel count reached (${runningCount}), waiting for ${retryMs}ms` *)
| StartedJob (i count : nat) (running : Z)
    (* `Started ${i}/${jobs.length} (parallel=${runningCount})` *)
| WaitingForRuns (running retry : Z).
    (* `Waiting for runs to complete (${runningCount}), waiting for ${retryMs}ms` *)

(** The diagnostics gated by [logRetries]: one per re-check of a polling
    loop.  [admission_diag] singles out those of an admission loop. *)
Definition polling_diag (d : diag) : bool :=
  match d with
  | MaxParallelReached _ _ | RunningJobs _ _ _ _ | WaitingForRuns _ _ => true
  | _ => false
  end.

Definition admission_diag (d : diag) : bool :=
  match d with
  | MaxParallelReached _ _ | RunningJobs _ _ _ _ => true
  | _ => false
  end.

(** ** Logger functions

    What a function does when it is called as a logger is its own code:
    [fn id calls d] is the exception the function [id] throws when it is
    called with the message [d] after the logger calls [calls] have been
    made, and [None] when the call returns.  The sink of the specification
    is side-effect only: it returns from every call. *)
Definition sinks : Type := nat -> list (nat * diag) -> diag -> option jsval.

Definition side_effect_only : sinks := λ _ _ _, None.

(** The logger [lg] returns from every call: it is such a function, or it is
    not a function at all. *)
Definition returns_normally (fn : sinks) (lg : jsval) : Prop :=
  match lg with
  | JFun id _ => ∀ calls d, fn id calls d = None
  | _ => True
  end.

(** ** Operations

    What a caller-supplied operation ([promiseProvider], or
    [jobToPromise(job)]) does when it is invoked: it throws before returning,
    it returns a value [v] that is not a promise and has no [then] method, or
    it returns a promise that fulfils, rejects, or stays pending for ever.
    When an asynchronous outcome is delivered is up to the event loop. *)
Inductive behaviour : Type :=
| SyncThrow (e : jsval)
| Returns (v : jsval)
| AsyncFulfil (v : jsval)
| AsyncReject (e : jsval)
| NeverSettles.

(** ** Synchronous segments *)
Inductive completion (A : Type) : Type :=
| Normal (a : A)
| Throw (e : jsval).
Arguments Normal {A} a.
Arguments Throw {A} e.

Definition js (S A : Type) : Type := S -> completion A * S.

Global Instance js_ret {S} : MRet (js S) := λ A a s, (Normal a, s).
Global Instance js_bind {S} : MBind (js S) := λ A B f m s,
  match m s with
  | (Normal a, s') => f a s'
  | (Throw e, s') => (Throw e, s')
  end.

Definition throw {S A} (e : jsval) : js S A := λ s, (Throw e, s).
Definition gets {S A} (f : S -> A) : js S A := λ s, (Normal (f s), s).
Definition modify {S} (f : S -> S) : js S () := λ s, (Normal (), f s).

(** [try { body } catch (e) { handler }] *)
Definition try_catch {S A} (body : js S A) (handler : jsval -> js S A) : js S A :=
  λ s, match body s with
       | (Normal a, s') => (Normal a, s')
       | (Throw e, s') => handler e s'
       end.

(** [if (c) { m }] *)
Definition when {S} (c : bool) (m : js S ()) : js S () :=
  if c then m else mret ().

(** The outcome of the promise an operation returned, if it has one. *)
Definition settlement (op : behaviour) : option (completion jsval) :=
  match op with
  | AsyncFulfil v => Some (Normal v)
  | AsyncReject e => Some (Throw e)
  | SyncThrow _ | Returns _ | NeverSettles => None
  end.

(** What [await x] resumes with, for [x] the value an operation returned: the
    settlement of a promise, and a value that is not a promise as it is.  An
    [async] function that returns [x] settles its own promise alike. *)
Definition resumption (op : behaviour) : option (completion jsval) :=
  match op with
  | Returns v => Some (Normal v)
  | _ => settlement op
  end.

(** [await p] resumed with the settlement of [p]. *)
Definition awaited {S} (c : completion jsval) : js S jsval :=
  match c with Normal v => mret v | Throw e => throw e end.

(** [e.message] inside a template literal. *)
Definition message_of {S} (e : jsval) : js S jsval :=
  if nullish e then throw (TypeError_read e "message") else mret (own_prop e "message").

(** * [ParallelLimiter] and [noLimiter] *)
Module Limiter.

(** The fields of a [ParallelLimiter] instance. *)
Record ParallelLimiter : Type := {
  maxParallel : Z;
  retryMs : Z;
  logger : jsval;
  logRetries : bool;
  runningCount : Z
}.

(** The object destructured by the constructor; [None] is a missing (or
    [undefined]) property. *)
Record options : Type := {
  opt_maxParallel : option Z;
  opt_retryMs : option Z;
  opt_logger : jsval;
  opt_logRetries : option bool
}.

(** [new ParallelLimiter()]: the parameter default [= {}]. *)
Definition no_options : options :=
  {| opt_maxParallel := None; opt_retryMs := None;
     opt_logger := JUndefined; opt_logRetries := None |}.

(** [this.logger = logger?.debug ?? logger], after the parameter default. *)
Definition constructor_logger (arg : jsval) : jsval :=
  let logger := default_param arg noop_logger in
  nullish_coalesce (opt_chain logger "debug") logger.

Definition constructor (o : options) : ParallelLimiter :=
  {| maxParallel := default 1 (opt_maxParallel o);
     retryMs := default 10 (opt_retryMs o);
     logger := constructor_logger (opt_logger o);
     logRetries := default false (opt_logRetries o);
     runningCount := 0 |}.

(** The sink in the words of the specification: [logger.debug] when the
    logger is not [null] and has a defined [debug] property, the logger
    itself otherwise. *)
Definition logger_as_specified (arg : jsval) : jsval :=
  let logger := default_param arg noop_logger in
  match logger, own_prop logger "debug" with
  | JNull, _ => logger
  | _, JUndefined => logger
  | _, debug => debug
  end.

(** The heap a [schedule] call can touch: the limiter, and three traces kept
    for the statements below: the calls made to the logger (function id and
    message), the delays passed to [asyncTimeout], and the operations
    invoked (by the index of the [schedule] call that owns them). *)
Record heap : Type := {
  this : ParallelLimiter;
  log : list (nat * diag);
  timeouts : list Z;
  invoked : list nat
}.

Definition set_runningCount (f : Z -> Z) (h : heap) : heap :=
  {| this := {| maxParallel := maxParallel (this h); retryMs := retryMs (this h);
                logger := logger (this h); logRetries := logRetries (this h);
                runningCount := f (runningCount (this h)) |};
     log := log h; timeouts := timeouts h; invoked := invoked h |}.

Definition push_log (e : nat * diag) (h : heap) : heap :=
  {| this := this h; log := log h ++ [e]; timeouts := timeouts h; invoked := invoked h |}.

Definition push_timeout (d : Z) (h : heap) : heap :=
  {| this := this h; log := log h; timeouts := timeouts h ++ [d]; invoked := invoked h |}.

Definition push_invoked (k : nat) (h : heap) : heap :=
  {| this := this h; log := log h; timeouts := timeouts h; invoked := invoked h ++ [k] |}.

(** [this.logger(d)]: a value that is not a function cannot be called; a
    function receives the message, and returns or throws as its code [fn]
    says. *)
Definition call_logger (fn : sinks) (d : diag) : js heap () := λ h,
  match logger (this h) with
  | JFun id _ =>
      (match fn id (log h) d with None => Normal () | Some e => Throw e end,
       push_log (id, d) h)
  | _ => (Throw (TypeError_call "this.logger"), h)
  end.

(** [exports.asyncTimeout(delayMs)]: starts a timer; the caller awaits it. *)
Definition asyncTimeout (delayMs : Z) : js heap () := modify (push_timeout delayMs).

(** [promiseProvider()] of call [k]. *)
Definition invoke (k : nat) (op : behaviour) : js heap () :=
  modify (push_invoked k);;
  match op with SyncThrow e => throw e | _ => mret () end.

(** Where a [schedule] call stands: suspended on the timer of the admission
    loop, suspended on the operation's promise, or settled. *)
Inductive status : Type :=
| Waiting
| Running
| Resolved (v : jsval)
| Rejected (e : jsval).

(** [ParallelLimiter.schedule] from the head of the admission loop up to the
    next [await]: run when the call is made and again whenever its timer
    fires. *)
Definition schedule (fn : sinks) (k : nat) (promiseProvider : behaviour) : js heap status :=
  l ← gets this;
  if runningCount l >=? maxParallel l then
    when (logRetries l)
      (call_logger fn (MaxParallelReached (runningCount l) (retryMs l)));;
    asyncTimeout (retryMs l);;
    mret Waiting
  else
    modify (set_runningCount Z.succ);;
    l ← gets this;
    call_logger fn (StartedPromise (runningCount l) (maxParallel l));;
    invoke k promiseProvider;;
    mret Running.

(** The rest of [schedule], resumed with the settlement of [promise]. *)
Definition schedule_settled (fn : sinks) (c : completion jsval) : js heap status :=
  try_catch
    (value ← awaited c;
     modify (set_runningCount Z.pred);;
     l ← gets this;
     call_logger fn (FinalizedPromise (runningCount l) (maxParallel l));;
     mret (Resolved value))
    (λ e,
     modify (set_runningCount Z.pred);;
     l ← gets this;
     m ← message_of e;
     call_logger fn (FailedPromise (runningCount l) (maxParallel l) m);;
     throw e).

(** [noLimiter.schedule]: [async asyncRunner => asyncRunner()].  The call
    invokes the operation and adopts the promise it returns. *)
Definition noLimiter_schedule (k : nat) (asyncRunner : behaviour) : js heap status :=
  invoke k asyncRunner;;
  mret Running.

Definition noLimiter_settled (c : completion jsval) : js heap status :=
  value ← awaited c;
  mret (Resolved value).

(** The interface shared by the two controllers. *)
Record controller : Type := {
  enter : nat -> behaviour -> js heap status;
  settled : completion jsval -> js heap status
}.

(** A [ParallelLimiter] whose logger functions have the code [fn], and the
    one of the specification, whose sink is side-effect only. *)
Definition limiter_with (fn : sinks) : controller :=
  {| enter := schedule fn; settled := schedule_settled fn |}.
Definition parallelLimiter : controller := limiter_with side_effect_only.
Definition noLimiter : controller :=
  {| enter := noLimiter_schedule; settled := noLimiter_settled |}.

(** ** The event loop *)
Record task : Type := { op : behaviour; state : status }.

Record world : Type := { mem : heap; tasks : list task }.

(** An exception that leaves an [async] function rejects its promise. *)
Definition async_result (r : completion status * heap) : status * heap :=
  match r with
  | (Normal s, h) => (s, h)
  | (Throw e, h) => (Rejected e, h)
  end.

Inductive event : Type :=
| Call (op : behaviour)     (* somebody calls [schedule(op)] *)
| TimerFired (k : nat)      (* the timer call [k] awaits has elapsed *)
| Settled (k : nat).        (* the [await] of call [k] on its operation resumes *)

Definition step (c : controller) (ev : event) (w : world) : option world :=
  match ev with
  | Call o =>
      let '(s, h) := async_result (enter c (length (tasks w)) o (mem w)) in
      Some {| mem := h; tasks := tasks w ++ [{| op := o; state := s |}] |}
  | TimerFired k =>
      match tasks w !! k with
      | Some {| op := o; state := Waiting |} =>
          let '(s, h) := async_result (enter c k o (mem w)) in
          Some {| mem := h; tasks := <[k := {| op := o; state := s |}]> (tasks w) |}
      | _ => None
      end
  | Settled k =>
      match tasks w !! k with
      | Some {| op := o; state := Running |} =>
          match resumption o with
          | Some r =>
              let '(s, h) := async_result (settled c r (mem w)) in
              Some {| mem := h; tasks := <[k := {| op := o; state := s |}]> (tasks w) |}
          | None => None
          end
      | _ => None
      end
  end.

Fixpoint run (c : controller) (evs : list event) (w : world) : option world :=
  match evs with
  | [] => Some w
  | ev :: evs' => match step c ev w with Some w' => run c evs' w' | None => None end
  end.

(** A limiter before its first call. *)
Definition fresh (l : ParallelLimiter) : world :=
  {| mem := {| this := l; log := []; timeouts := []; invoked := [] |}; tasks := [] |}.

Definition reachable (c : controller) (w0 w : world) : Prop :=
  rtc (λ a b, ∃ ev, step c ev a = Some b) w0 w.

(** Operations in flight: launched and not yet completed. *)
Definition is_running (t : task) : bool :=
  match state t with Running => true | _ => false end.

Definition weight (t : task) : nat := if is_running t then 1%nat else 0%nat.

Definition running_tasks (ts : list task) : nat :=
  length (filter (λ t, is_running t = true) ts).

Definition in_flight (w : world) : nat := running_tasks (tasks w).

(** How many times call [k] has invoked its operation. *)
Definition occurrences (k : nat) (l : list nat) : nat :=
  length (filter (λ j, j = k) l).

Definition invocations (k : nat) (w : world) : nat :=
  occurrences k (invoked (mem w)).

(** The configuration of a limiter: everything but the counter. *)
Definition same_config (l l' : ParallelLimiter) : Prop :=
  maxParallel l' = maxParallel l ∧ retryMs l' = retryMs l ∧
  logger l' = logger l ∧ logRetries l' = logRetries l.

(** A logger call made to the function [lg]. *)
Definition logged_by (lg : jsval) (e : nat * diag) : Prop :=
  ∃ ps, lg = JFun e.1 ps.

(** What the state of a call says about the invocations of its operation. *)
Definition invoked_as_state (lg : jsval) (s : status) (n : nat) : Prop :=
  match s with
  | Waiting => n = 0%nat
  | Running | Resolved _ => n = 1%nat
  | Rejected _ => (n ≤ 1)%nat ∧ (callable lg = true -> n = 1%nat)
  end.

(** What the state of a [noLimiter.schedule] call says about its operation. *)
Definition mirrors (o : behaviour) (s : status) : Prop :=
  match s with
  | Waiting => False
  | Running => ∀ e, o ≠ SyncThrow e
  | Resolved v => o = AsyncFulfil v ∨ o = Returns v
  | Rejected e => o = SyncThrow e ∨ o = AsyncReject e
  end.

(** The invariant of a limiter created with configuration [l0]. *)
Definition limiter_inv (l0 : ParallelLimiter) (w : world) : Prop :=
  same_config l0 (this (mem w)) ∧
  Z.of_nat (in_flight w) ≤ runningCount (this (mem w)) ≤ Z.max 0 (maxParallel l0) ∧
  (in_flight w ≠ 0%nat -> callable (logger l0) = true) ∧
  (∀ k t, tasks w !! k = Some t ->
          invoked_as_state (logger l0) (state t) (invocations k w)) ∧
  (∀ k, (length (tasks w) ≤ k)%nat -> invocations k w = 0%nat).

End Limiter.

(** * [allSettledParallelLimited] *)
Module Batch.

(** The destructured argument, after the parameter defaults.
    [jobToPromise] gives what the call [jobToPromise(job)] does. *)
Record arguments : Type := {
  jobs : list jsval;
  jobToPromise : jsval -> behaviour;
  maxParallel : Z;
  retryMs : Z;
  logger : jsval;
  logRetries : bool
}.

(** The argument as the caller wrote it; [None] and [JUndefined] are the
    properties left out, which take their defaults. *)
Record options : Type := {
  opt_jobs : list jsval;
  opt_jobToPromise : jsval -> behaviour;
  opt_maxParallel : Z;
  opt_retryMs : option Z;
  opt_logger : jsval;
  opt_logRetries : option bool
}.

Definition destructure (o : options) : arguments :=
  {| jobs := opt_jobs o;
     jobToPromise := opt_jobToPromise o;
     maxParallel := opt_maxParallel o;
     retryMs := default 10 (opt_retryMs o);
     logger := default_param (opt_logger o) noop_logger;
     logRetries := default false (opt_logRetries o) |}.

(** An element of [runs].  [None] is a property the object literal does not
    have. *)
Record reason_object : Type := { error : jsval; job : jsval }.

Record record : Type := {
  status : string;
  value : option jsval;
  reason : option reason_object
}.

(** The locals of one call, and the traces kept for the statements below:
    logger calls, [asyncTimeout] delays, the jobs whose operation was invoked
    and the jobs whose promise has its [then]/[catch] handlers still to run
    (both by index in [jobs]). *)
Record heap : Type := {
  runningCount : Z;
  runs : list record;
  log : list (nat * diag);
  timeouts : list Z;
  invoked : list nat;
  pending : list nat
}.

Definition empty_heap : heap :=
  {| runningCount := 0; runs := []; log := []; timeouts := []; invoked := []; pending := [] |}.

Definition set_runningCount (f : Z -> Z) (h : heap) : heap :=
  {| runningCount := f (runningCount h); runs := runs h; log := log h;
     timeouts := timeouts h; invoked := invoked h; pending := pending h |}.

Definition push_run (r : record) (h : heap) : heap :=
  {| runningCount := runningCount h; runs := runs h ++ [r]; log := log h;
     timeouts := timeouts h; invoked := invoked h; pending := pending h |}.

Definition push_log (e : nat * diag) (h : heap) : heap :=
  {| runningCount := runningCount h; runs := runs h; log := log h ++ [e];
     timeouts := timeouts h; invoked := invoked h; pending := pending h |}.

Definition push_timeout (d : Z) (h : heap) : heap :=
  {| runningCount := runningCount h; runs := runs h; log := log h;
     timeouts := timeouts h ++ [d]; invoked := invoked h; pending := pending h |}.

Definition push_invoked (i : nat) (h : heap) : heap :=
  {| runningCount := runningCount h; runs := runs h; log := log h;
     timeouts := timeouts h; invoked := invoked h ++ [i]; pending := pending h |}.

Definition set_pending (p : list nat) (h : heap) : heap :=
  {| runningCount := runningCount h; runs := runs h; log := log h;
     timeouts := timeouts h; invoked := invoked h; pending := p |}.

(** [logger(d)], for a logger that is side-effect only: a value that is not
    a function cannot be called, and a function receives the message and
    returns. *)
Definition call_logger (a : arguments) (d : diag) : js heap () := λ h,
  match logger a with
  | JFun id _ => (Normal (), push_log (id, d) h)
  | _ => (Throw (TypeError_call "logger"), h)
  end.

Definition asyncTimeout (delayMs : Z) : js heap () := modify (push_timeout delayMs).

(** [x.then] read and called on the value [x] a job returned that is not a
    promise: reading a property of [undefined] or [null] throws, and on any
    other such value [then] is [undefined], which cannot be called. *)
Definition then_error (x : jsval) : jsval :=
  if nullish x then TypeError_read x "then"
  else TypeError_call "jobToPromise(...).then".

(** [jobToPromise(job).then(...).catch(...)] for the job at index [i]: the
    operation is invoked; when it returns a promise, the two handlers are
    attached to it.  When it throws, or returns something that is not a
    promise, the exception leaves the statement. *)
Definition dispatch (a : arguments) (i : nat) (job : jsval) : js heap () :=
  modify (push_invoked i);;
  match jobToPromise a job with
  | SyncThrow e => throw e
  | Returns x => throw (then_error x)
  | AsyncFulfil _ | AsyncReject _ | NeverSettles =>
      modify (λ h, set_pending (pending h ++ [i]) h)
  end.

(** The exception that leaves [jobToPromise(job).then(...).catch(...)], if
    there is one. *)
Definition dispatch_throws (b : behaviour) : option jsval :=
  match b with
  | SyncThrow e => Some e
  | Returns x => Some (then_error x)
  | AsyncFulfil _ | AsyncReject _ | NeverSettles => None
  end.

(** The [then] handler and the [catch] handler. *)
Definition on_fulfilled (value : jsval) (h : heap) : heap :=
  push_run {| status := "fulfilled"; value := Some value; reason := None |}
    (set_runningCount Z.pred h).

Definition on_rejected (job error : jsval) (h : heap) : heap :=
  push_run {| status := "rejected"; value := None;
              reason := Some {| error := error; job := job |} |}
    (set_runningCount Z.pred h).

(** Where the call itself stands: suspended in the admission loop before
    job [i], suspended in the drain loop, or settled.  A resolved call has
    returned the array [runs] itself. *)
Inductive main_status : Type :=
| AdmissionWait (i : nat)
| DrainWait
| Resolved
| Rejected (e : jsval).

(** The drain loop, from its head to the next [await] or the [return]. *)
Definition drain (a : arguments) : js heap main_status :=
  n ← gets runningCount;
  if n >=? 1 then
    when (logRetries a) (call_logger a (WaitingForRuns n (retryMs a)));;
    asyncTimeout (5 * retryMs a);;
    mret DrainWait
  else mret Resolved.

(** The [for] loop from the head of the admission loop of iteration [i],
    with [rest] the jobs from index [i] on, up to the next [await] or the
    [return]. *)
Fixpoint for_loop (a : arguments) (i : nat) (rest : list jsval) : js heap main_status :=
  match rest with
  | [] => drain a
  | job :: rest' =>
      n ← gets runningCount;
      if n >=? maxParallel a then
        when (logRetries a)
          (call_logger a (RunningJobs i (length (jobs a)) n (retryMs a)));;
        asyncTimeout (retryMs a);;
        mret (AdmissionWait i)
      else
        modify (set_runningCount Z.succ);;
        n ← gets runningCount;
        call_logger a (StartedJob i (length (jobs a)) n);;
        dispatch a i job;;
        for_loop a (S i) rest'
  end.

Record world : Type := { mem : heap; main : main_status }.

Definition async_result (r : completion main_status * heap) : world :=
  match r with
  | (Normal s, h) => {| mem := h; main := s |}
  | (Throw e, h) => {| mem := h; main := Rejected e |}
  end.

(** The call: everything up to the first [await]. *)
Definition allSettledParallelLimited (a : arguments) : world :=
  async_result (for_loop a 0 (jobs a) empty_heap).

(** The first occurrence of [j] taken out of [l]. *)
Fixpoint take_out (j : nat) (l : list nat) : option (list nat) :=
  match l with
  | [] => None
  | x :: l' => if decide (x = j) then Some l' else (x ::.) <$> take_out j l'
  end.

Inductive event : Type :=
| TimerFired          (* the timer the call awaits has elapsed *)
| Settled (j : nat).  (* the promise of job [j] has settled: its handler runs *)

Definition step (a : arguments) (ev : event) (w : world) : option world :=
  match ev with
  | TimerFired =>
      match main w with
      | AdmissionWait i => Some (async_result (for_loop a i (drop i (jobs a)) (mem w)))
      | DrainWait => Some (async_result (drain a (mem w)))
      | Resolved | Rejected _ => None
      end
  | Settled j =>
      match take_out j (pending (mem w)), jobs a !! j with
      | Some p, Some job =>
          match settlement (jobToPromise a job) with
          | Some (Normal v) =>
              Some {| mem := on_fulfilled v (set_pending p (mem w)); main := main w |}
          | Some (Throw e) =>
              Some {| mem := on_rejected job e (set_pending p (mem w)); main := main w |}
          | None => None
          end
      | _, _ => None
      end
  end.

Fixpoint run (a : arguments) (evs : list event) (w : world) : option world :=
  match evs with
  | [] => Some w
  | ev :: evs' => match step a ev w with Some w' => run a evs' w' | None => None end
  end.

Definition reachable (a : arguments) (w : world) : Prop :=
  rtc (λ x y, ∃ ev, step a ev x = Some y) (allSettledParallelLimited a) w.

(** An eager event loop: run the handlers that are due, oldest first, and
    let the timer fire only when none is left. *)
Definition next_event (w : world) : option event :=
  match pending (mem w) with
  | j :: _ => Some (Settled j)
  | [] =>
      match main w with
      | AdmissionWait _ | DrainWait => Some TimerFired
      | Resolved | Rejected _ => None
      end
  end.

Fixpoint drive (a : arguments) (fuel : nat) (w : world) : world :=
  match fuel with
  | O => w
  | S fuel' =>
      match next_event w with
      | Some ev => match step a ev w with Some w' => drive a fuel' w' | None => w end
      | None => w
      end
  end.

(** The record the handlers of a job produce, if its promise settles. *)
Definition settled_record (a : arguments) (job : jsval) : option record :=
  match jobToPromise a job with
  | AsyncFulfil v => Some {| status := "fulfilled"; value := Some v; reason := None |}
  | AsyncReject e =>
      Some {| status := "rejected"; value := None;
              reason := Some {| error := e; job := job |} |}
  | SyncThrow _ | Returns _ | NeverSettles => None
  end.

(** The heap after iteration [i] of the [for] loop has launched its job and
    attached the handlers, with [id] the logger called. *)
Definition launched (a : arguments) (id i : nat) (h : heap) : heap :=
  set_pending (pending h ++ [i])
    (push_invoked i
       (push_log (id, StartedJob i (length (jobs a)) (Z.succ (runningCount h)))
          (set_runningCount Z.succ h))).

(** The body of a polling loop up to its [await]: the optional diagnostic and
    the timer. *)
Definition suspended (a : arguments) (d : diag) (delay : Z) (h : heap) : completion () * heap :=
  if logRetries a then
    match logger a with
    | JFun id _ => (Normal (), push_timeout delay (push_log (id, d) h))
    | _ => (Throw (TypeError_call "logger"), h)
    end
  else (Normal (), push_timeout delay h).

(** The heap after [i] jobs have been dispatched: the counter counts the
    handlers still to run, and the jobs whose handler has run are the ones
    with a record in [runs], in the order of completion. *)
Definition heap_inv (a : arguments) (i : nat) (h : heap) : Prop :=
  (i ≤ length (jobs a))%nat ∧
  runningCount h = Z.of_nat (length (pending h)) ∧
  ∃ completed : list nat,
    completed ++ pending h ≡ₚ seq 0 i ∧
    Forall2 (λ j r, ∃ job, jobs a !! j = Some job ∧ settled_record a job = Some r)
            completed (runs h).

Definition batch_inv (a : arguments) (w : world) : Prop :=
  match main w with
  | AdmissionWait i => (i < length (jobs a))%nat ∧ heap_inv a i (mem w)
  | DrainWait => heap_inv a (length (jobs a)) (mem w)
  | Resolved => heap_inv a (length (jobs a)) (mem w) ∧ pending (mem w) = []
  | Rejected _ => True
  end.

(** The counter against the handlers still to run and the capacity. *)
Definition count_inv (a : arguments) (h : heap) : Prop :=
  Z.of_nat (length (pending h)) ≤ runningCount h ≤ Z.max 0 (maxParallel a).

(** A bound on the events the eager loop needs to resolve the call. *)
Definition rank (a : arguments) (w : world) : nat :=
  match main w with
  | AdmissionWait i => 2 * (length (jobs a) - i) + length (pending (mem w)) + 1
  | DrainWait => length (pending (mem w)) + 1
  | Resolved | Rejected _ => 0
  end.

(** A heap without a trace of an admission wait: no diagnostic of the
    admission loop, and no timer but those of the drain loop. *)
Definition quiet (a : arguments) (h : heap) : Prop :=
  Forall (λ e, admission_diag e.2 = false) (log h) ∧
  (logRetries a = false -> Forall (λ e, polling_diag e.2 = false) (log h)) ∧
  Forall (λ d, d = 5 * retryMs a) (timeouts h).

(** The shape of a settled-outcome record. *)
Definition well_formed (r : record) : Prop :=
  (status r = "fulfilled" ∧ is_Some (value r) ∧ reason r = None) ∨
  (status r = "rejected" ∧ value r = None ∧ is_Some (reason r)).

End Batch.

(** * Scenarios

    Concrete limiters, batches and schedules, used to exercise the
    statements below. *)
Module Scenario.

Definition boom : jsval := JError "boom".

(** A console-like logger object, and a function logger. *)
Definition console : jsval := JObj [("log", JFun 1 []); ("debug", JFun 2 [])].
Definition collect : jsval := JFun 3 [].

(** An object whose [debug] property is [null]. *)
Definition null_debug : jsval := JObj [("debug", JNull)].

Definition limiter_options (capacity : Z) (lg : jsval) : Limiter.options :=
  {| Limiter.opt_maxParallel := Some capacity; Limiter.opt_retryMs := None;
     Limiter.opt_logger := lg; Limiter.opt_logRetries := Some true |}.

(** Three calls on a limiter of capacity 2: the third one polls once before
    the first completes, is launched on its second poll, and fails. *)
Definition three_calls : list Limiter.event :=
  [Limiter.Call (AsyncFulfil (JNum 42)); Limiter.Call (AsyncFulfil (JStr "b"));
   Limiter.Call (AsyncReject boom); Limiter.TimerFired 2; Limiter.Settled 0;
   Limiter.TimerFired 2; Limiter.Settled 2].

Definition after (c : Limiter.controller) (o : Limiter.options)
    (evs : list Limiter.event) : Limiter.world :=
  default (Limiter.fresh (Limiter.constructor o))
          (Limiter.run c evs (Limiter.fresh (Limiter.constructor o))).

(** What [jobToPromise] does in the batches below: the promises of jobs 0
    and 1 fulfil and reject, job 2 throws; any other job gets a promise that
    fulfils with the job itself. *)
Definition outcome (job : jsval) : behaviour :=
  match job with
  | JNum 0 => AsyncFulfil (JStr "zero")
  | JNum 1 => AsyncReject boom
  | JNum 2 => SyncThrow boom
  | _ => AsyncFulfil job
  end.

Definition batch (js : list jsval) (capacity : Z) (verbose : bool) : Batch.arguments :=
  {| Batch.jobs := js; Batch.jobToPromise := outcome; Batch.maxParallel := capacity;
     Batch.retryMs := 10; Batch.logger := collect; Batch.logRetries := verbose |}.

Definition batch_after (a : Batch.arguments) (evs : list Batch.event) : Batch.world :=
  default (Batch.allSettledParallelLimited a)
          (Batch.run a evs (Batch.allSettledParallelLimited a)).

(** The states the witnesses look at. *)
Definition capacity2 : Limiter.options := limiter_options 2 collect.
Definition busy_limiter : Limiter.world :=
  after Limiter.parallelLimiter capacity2 (take 5 three_calls).
Definition done_limiter : Limiter.world :=
  after Limiter.parallelLimiter capacity2 three_calls.

Definition capacity0 : Limiter.options := limiter_options 0 collect.
Definition blocked_limiter : Limiter.world :=
  after Limiter.parallelLimiter capacity0
    [Limiter.Call (AsyncFulfil (JNum 42)); Limiter.TimerFired 0; Limiter.TimerFired 0].

Definition unlimited : Limiter.world :=
  after Limiter.noLimiter Limiter.no_options [Limiter.Call (AsyncFulfil (JNum 42))].

Definition console_limiter : Limiter.world :=
  after Limiter.parallelLimiter (limiter_options 1 console) three_calls.

(** A provider that throws before returning a promise, then a second call. *)
Definition leaked_limiter : Limiter.world :=
  after Limiter.parallelLimiter (limiter_options 1 collect)
    [Limiter.Call (SyncThrow boom); Limiter.Call (AsyncFulfil (JNum 1));
     Limiter.TimerFired 1].

Definition mixed : Batch.arguments := batch [JNum 0; JNum 1; JNum 5] 2 true.
Definition mixed_running : Batch.world := batch_after mixed [Batch.Settled 1].
Definition mixed_resolved : Batch.world :=
  batch_after mixed
    [Batch.Settled 1; Batch.TimerFired; Batch.Settled 2; Batch.Settled 0; Batch.TimerFired].

Definition throwing : Batch.arguments := batch [JNum 2] 1 false.
Definition starved : Batch.arguments := batch [JNum 0; JNum 1] (-1) true.
Definition starved_polling : Batch.world :=
  batch_after starved [Batch.TimerFired; Batch.TimerFired].
Definition roomy : Batch.arguments := batch [JNum 0] 1 true.
Definition roomy_draining : Batch.world := batch_after roomy [Batch.TimerFired].
Definition nothing : Batch.arguments :=
  Batch.destructure
    {| Batch.opt_jobs := []; Batch.opt_jobToPromise := outcome;
       Batch.opt_maxParallel := -3; Batch.opt_retryMs := None;
       Batch.opt_logger := JUndefined; Batch.opt_logRetries := Some true |}.

(** The first test of [test-parallel-limiter.mjs]: two calls, one after the
    other, on a limiter of capacity 10. *)
Definition test_mirror : Limiter.world :=
  after Limiter.parallelLimiter
    {| Limiter.opt_maxParallel := Some 10; Limiter.opt_retryMs := Some 200;
       Limiter.opt_logger := collect; Limiter.opt_logRetries := Some true |}
    [Limiter.Call (AsyncFulfil (JStr "response")); Limiter.Settled 0;
     Limiter.Call (AsyncFulfil (JStr "response")); Limiter.Settled 1].

End Scenario.

(** * More about [ParallelLimiter]: counting, diagnostics and an eager loop *)
Module LimiterAux.
Import Limiter.

Definition count_tasks (f : task -> bool) (ts : list task) : nat :=
  length (filter (λ t, f t = true) ts).

Definition is_waiting (t : task) : bool :=
  match state t with Waiting => true | _ => false end.

(** A call whose provider threw after the counter was incremented. *)
Definition is_leak (t : task) : bool :=
  match op t, state t with
  | SyncThrow _, Rejected _ => true
  | _, _ => false
  end.

Definition leaked (w : world) : nat := count_tasks is_leak (tasks w).
Definition waiting (w : world) : nat := count_tasks is_waiting (tasks w).

(** What the [catch] block throws for a promise rejected with [e]. *)
Definition rethrown (e : jsval) : jsval :=
  if nullish e then TypeError_read e "message" else e.

(** The outcome of a call against its operation. *)
Definition faithful (t : task) : Prop :=
  match state t with
  | Waiting => True
  | Running => ∀ e, op t ≠ SyncThrow e
  | Resolved v => op t = AsyncFulfil v ∨ op t = Returns v
  | Rejected e =>
      op t = SyncThrow e ∨ ∃ e', op t = AsyncReject e' ∧ e = rethrown e'
  end.

(** What a diagnostic of a limiter with configuration [l] can say. *)
Definition diag_sound (l : ParallelLimiter) (d : diag) : Prop :=
  match d with
  | MaxParallelReached running retry =>
      maxParallel l ≤ running ∧ retry = retryMs l ∧ logRetries l = true
  | StartedPromise running max => 1 ≤ running ≤ max ∧ max = maxParallel l
  | FinalizedPromise running max | FailedPromise running max _ =>
      0 ≤ running < max ∧ max = maxParallel l
  | RunningJobs _ _ _ _ | StartedJob _ _ _ | WaitingForRuns _ _ => False
  end.

(** The counter is the calls in flight plus the calls lost to a throwing
    provider, and every call is faithful to its operation. *)
Definition exact (l0 : ParallelLimiter) (w : world) : Prop :=
  same_config l0 (this (mem w)) ∧
  runningCount (this (mem w)) = Z.of_nat (in_flight w) + Z.of_nat (leaked w) ∧
  Forall faithful (tasks w).

Definition polling_count (lg : list (nat * diag)) : nat :=
  length (filter (λ e, polling_diag e.2 = true) lg).

(** The traces of a limiter with configuration [l0]: every diagnostic is
    sound, every timer has the configured delay, and with [logRetries] there
    is one polling diagnostic per timer. *)
Definition traced (l0 : ParallelLimiter) (w : world) : Prop :=
  Forall (λ e, diag_sound l0 e.2) (log (mem w)) ∧
  Forall (λ d, d = retryMs l0) (timeouts (mem w)) ∧
  polling_count (log (mem w)) =
    (if logRetries l0 then length (timeouts (mem w)) else 0)%nat.

(** An eager event loop for a limiter: resume a call whose promise has
    settled if there is one, and otherwise let the timer of the first polling
    call fire. *)
Definition can_settle (t : task) : bool :=
  is_running t && match resumption (op t) with Some _ => true | None => false end.

Definition next_event (w : world) : option event :=
  match list_find (λ t, can_settle t = true) (tasks w) with
  | Some (k, _) => Some (Settled k)
  | None =>
      match list_find (λ t, is_waiting t = true) (tasks w) with
      | Some (k, _) => Some (TimerFired k)
      | None => None
      end
  end.

Fixpoint drive (c : controller) (fuel : nat) (w : world) : world :=
  match fuel with
  | O => w
  | S fuel' =>
      match next_event w with
      | Some ev =>
          match step c ev w with
          | Some w' => drive c fuel' w'
          | None => w
          end
      | None => w
      end
  end.

Definition rank (w : world) : nat := 2 * waiting w + in_flight w.

(** The state of a call that is over, for an operation that settles. *)
Definition outcome_of (o : behaviour) : status :=
  match o with
  | AsyncFulfil v | Returns v => Resolved v
  | AsyncReject e => Rejected (rethrown e)
  | SyncThrow e => Rejected e
  | NeverSettles => Running
  end.

(** [Promise.all(ops.map(op => limiter.schedule(op)))]: the calls of a burst,
    made one after the other before the event loop runs anything else. *)
Definition burst (ops : list behaviour) : list event := Call <$> ops.

(** How many [schedule] calls a list of events makes. *)
Fixpoint calls (evs : list event) : nat :=
  match evs with
  | [] => 0
  | Call _ :: evs' => S (calls evs')
  | _ :: evs' => calls evs'
  end.

(** A call of [noLimiter.schedule] as [ParallelLimiter.schedule] reports it:
    the same, except that a promise rejected with [null] or [undefined]
    comes out as the [TypeError] of the [catch] block. *)
Definition as_scheduled (t : task) : task :=
  {| op := op t;
     state := match state t, op t with
              | Rejected e, AsyncReject _ => Rejected (rethrown e)
              | s, _ => s
              end |}.

(** The two controllers side by side: [w] under [ParallelLimiter], [w']
    under [noLimiter]. *)
Definition alongside (l : ParallelLimiter) (w w' : world) : Prop :=
  same_config l (this (mem w)) ∧
  runningCount (this (mem w)) ≤ Z.of_nat (length (tasks w)) ∧
  tasks w = as_scheduled <$> tasks w' ∧
  invoked (mem w) = invoked (mem w') ∧
  Forall (λ t, state t ≠ Waiting) (tasks w').

Definition agree {A B} (R : A -> B -> Prop) (x : option A) (y : option B) : Prop :=
  match x, y with
  | Some a, Some b => R a b
  | None, None => True
  | _, _ => False
  end.

End LimiterAux.

(** * More about [allSettledParallelLimited] *)
Module BatchAux.
Import Batch.

(** With a capacity of one, after [i] jobs have been dispatched: either all
    of them have their record, or all but the last, which is the one in
    flight; the records are in the order of the jobs. *)
Definition serial_inv (a : arguments) (i : nat) (h : heap) : Prop :=
  (i ≤ length (jobs a))%nat ∧
  runningCount h = Z.of_nat (length (pending h)) ∧
  ((pending h = [] ∧
    Forall2 (λ job r, settled_record a job = Some r) (take i (jobs a)) (runs h)) ∨
   (∃ i', i = S i' ∧ pending h = [i'] ∧
    Forall2 (λ job r, settled_record a job = Some r) (take i' (jobs a)) (runs h))).

Definition serial (a : arguments) (w : world) : Prop :=
  match main w with
  | AdmissionWait i => (i < length (jobs a))%nat ∧ serial_inv a i (mem w)
  | DrainWait | Resolved => serial_inv a (length (jobs a)) (mem w)
  | Rejected _ => True
  end.

(** The operations invoked so far are those of the first jobs, in order. *)
Definition started (a : arguments) (w : world) : Prop :=
  ∃ k, invoked (mem w) = seq 0 k ∧ (k ≤ length (jobs a))%nat ∧
       match main w with
       | AdmissionWait i => k = i
       | DrainWait | Resolved => k = length (jobs a)
       | Rejected _ => True
       end.

End BatchAux.

(** * The test helper [mockHttpGetResponses] ([test/helpers.mjs])

    The loop that builds the mocked responses and the list of URIs.  The
    registration with [nock] and the HTTP server are outside the model; what
    the server answers for a request is the lookup [serve].  An index is
    written into a template literal as its decimal numeral, which is
    [pretty]. *)
Module Helpers.

Record response_body : Type := {
  numbers : list nat;
  keywords : list (string * string)
}.

Definition mockedResponseBody (jobIndex : nat) : response_body :=
  {| numbers := [1; 2; 3; jobIndex]%nat;
     keywords := [("message1", "Message #1"); ("message2", "Message #2");
                  ("message3", "Message " +:+ pretty jobIndex)] |}.

Definition uri (jobIndex : nat) : string := "/mocked-uri" +:+ pretty jobIndex.

Definition httpListenPort : Z := 8888.

Definition urlBasePath (useHttpServer : bool) : string :=
  if useHttpServer then "http://localhost:" +:+ pretty httpListenPort
  else "https://mocked-url".

Record mocks : Type := {
  mockedResponses : gmap string response_body;
  uris : list string
}.

(** One iteration of the loop. *)
Definition register (m : mocks) (jobIndex : nat) : mocks :=
  {| mockedResponses := <[uri jobIndex := mockedResponseBody jobIndex]> (mockedResponses m);
     uris := uris m ++ [uri jobIndex] |}.

Definition mockHttpGetResponses (runInParallel : nat) : mocks :=
  foldl register {| mockedResponses := ∅; uris := [] |} (seq 0 runInParallel).

(** [mockedResponses[req.url]] in the request handler of the server. *)
Definition serve (m : mocks) (url : string) : option response_body :=
  mockedResponses m !! url.

End Helpers.

(** * More scenarios *)
Module Sample.

(** A console-like object that has no [debug] method. *)
Definition plain_console : jsval := JObj [("log", JFun 1 [])].

Definition no_sink : Limiter.options := Scenario.limiter_options 1 plain_console.
Definition no_sink_world : Limiter.world :=
  Scenario.after Limiter.parallelLimiter no_sink
    [Limiter.Call (AsyncFulfil (JNum 1)); Limiter.Call (AsyncFulfil (JNum 2))].

Definition capacity10 : Limiter.options :=
  {| Limiter.opt_maxParallel := Some 10; Limiter.opt_retryMs := Some 200;
     Limiter.opt_logger := Scenario.collect; Limiter.opt_logRetries := Some true |}.

Definition two_calls : list Limiter.event :=
  [Limiter.Call (AsyncFulfil (JStr "response")); Limiter.Settled 0;
   Limiter.Call (AsyncReject JNull); Limiter.Settled 1].

Definition three_ops : list behaviour :=
  [AsyncFulfil (JNum 1); AsyncReject Scenario.boom; AsyncFulfil (JNum 3)].

(** A batch whose jobs all fulfil, run one at a time. *)
Definition downloads : Batch.arguments :=
  Scenario.batch [JNum 0; JNum 5; JNum 7] 1 false.
Definition downloads_events : list Batch.event :=
  [Batch.Settled 0; Batch.TimerFired; Batch.Settled 1; Batch.TimerFired;
   Batch.Settled 2; Batch.TimerFired].
Definition downloads_done : Batch.world := Scenario.batch_after downloads downloads_events.

(** Logger functions: function 7 throws on every ["Finalized Promise"]
    message, function 8 on every ["Started Promise"] message; every other
    function returns from every call. *)
Definition sink_failed : jsval := JError "sink failed".
Definition flaky : sinks := λ id _ d,
  match id, d with
  | 7%nat, FinalizedPromise _ _ => Some sink_failed
  | 8%nat, StartedPromise _ _ => Some sink_failed
  | _, _ => None
  end.

Definition after_with (fn : sinks) (o : Limiter.options)
    (evs : list Limiter.event) : Limiter.world :=
  default (Limiter.fresh (Limiter.constructor o))
          (Limiter.run (Limiter.limiter_with fn) evs (Limiter.fresh (Limiter.constructor o))).

(** A limiter of capacity one whose logger throws on ["Finalized Promise"]:
    one call, whose promise fulfils. *)
Definition strict : Limiter.options := Scenario.limiter_options 1 (JFun 7 []).
Definition strict_done : Limiter.world :=
  after_with flaky strict [Limiter.Call (AsyncFulfil (JNum 1)); Limiter.Settled 0].

(** The same limiter after two more calls. *)
Definition strict_overbooked : Limiter.world :=
  after_with flaky strict
    [Limiter.Call (AsyncFulfil (JNum 1)); Limiter.Settled 0;
     Limiter.Call (AsyncFulfil (JNum 2)); Limiter.Call (AsyncFulfil (JNum 3))].

(** A limiter of capacity one whose logger throws on ["Started Promise"]. *)
Definition deaf : Limiter.options := Scenario.limiter_options 1 (JFun 8 []).
Definition deaf_called : Limiter.world :=
  after_with flaky deaf [Limiter.Call (AsyncFulfil (JNum 1))].



(** A batch given the console object itself as logger. *)
Definition console_batch : Batch.options :=
  {| Batch.opt_jobs := [JNum 0]; Batch.opt_jobToPromise := Scenario.outcome;
     Batch.opt_maxParallel := 1; Batch.opt_retryMs := None;
     Batch.opt_logger := Scenario.console; Batch.opt_logRetries := None |}.

End Sample.

(** * Proofs *)

Lemma geb_true x y : y ≤ x -> (x >=? y) = true.
Proof. intros. by apply Z.geb_le. Qed.

Lemma geb_false x y : x < y -> (x >=? y) = false.
Proof. intros. destruct (Z.geb_spec x y); [lia|done]. Qed.

Ltac js_unfold :=
  unfold mbind, js_bind, mret, js_ret, gets, modify, throw, when, try_catch,
    awaited, message_of in *.

Section LimiterFacts.
Import Limiter.

Lemma reachable_ind (c : controller) (P : world -> Prop) (w0 : world) :
  P w0 ->
  (∀ w ev w', reachable c w0 w -> P w -> step c ev w = Some w' -> P w') ->
  ∀ w, reachable c w0 w -> P w.
Proof.
  intros H0 Hstep w Hr.
  assert (reachable c w0 w ∧ P w) as [_ ?]; [|done].
  revert w Hr. unfold reachable. apply rtc_ind_r.
  - split; [apply rtc_refl | done].
  - intros w w' Hr [ev Hev] [_ IH]. split; [|by eauto].
    eapply rtc_r; [done | by exists ev].
Qed.

Lemma run_reachable c evs w0 w : run c evs w0 = Some w -> reachable c w0 w.
Proof.
  revert w0. induction evs as [|ev evs IH]; simpl; intros w0.
  - intros [= ->]. apply rtc_refl.
  - destruct (step c ev w0) as [w1|] eqn:E; [|done].
    intros H. eapply rtc_l; [by exists ev | by apply IH].
Qed.

(** ** One synchronous segment of [schedule] *)

Lemma schedule_effect k o h s h' :
  async_result (schedule side_effect_only k o h) = (s, h') ->
  same_config (this h) (this h') ∧
  match s with
  | Waiting =>
      runningCount (this h) >= maxParallel (this h) ∧
      runningCount (this h') = runningCount (this h) ∧ invoked h' = invoked h
  | Running =>
      runningCount (this h) < maxParallel (this h) ∧
      runningCount (this h') = runningCount (this h) + 1 ∧
      invoked h' = invoked h ++ [k] ∧ callable (logger (this h)) = true ∧
      ∀ e, o ≠ SyncThrow e
  | Resolved _ => False
  | Rejected e =>
      (callable (logger (this h)) = false ∧ invoked h' = invoked h ∧
       (runningCount (this h') = runningCount (this h) ∨
        runningCount (this h) < maxParallel (this h) ∧
        runningCount (this h') = runningCount (this h) + 1)) ∨
      (callable (logger (this h)) = true ∧ o = SyncThrow e ∧
       runningCount (this h) < maxParallel (this h) ∧
       runningCount (this h') = runningCount (this h) + 1 ∧
       invoked h' = invoked h ++ [k])
  end.
Proof.
  unfold schedule, invoke, call_logger, side_effect_only, asyncTimeout, same_config. js_unfold.
  destruct h as [[mx rt lg lr rc] lo ti iv]; simpl.
  destruct (Z.geb_spec rc mx); destruct lr, lg, o; simpl; intros [= <- <-]; simpl;
    repeat split; auto; try lia; try done; naive_solver lia.
Qed.

Lemma schedule_settled_effect c h s h' :
  async_result (schedule_settled side_effect_only c h) = (s, h') ->
  same_config (this h) (this h') ∧ invoked h' = invoked h ∧
  timeouts h' = timeouts h ∧ s ≠ Waiting ∧ s ≠ Running ∧
  runningCount (this h') ≤ runningCount (this h) - 1 ∧
  (callable (logger (this h)) = true ->
   runningCount (this h') = runningCount (this h) - 1 ∧
   s = match c with
       | Normal v => Resolved v
       | Throw e => Rejected (if nullish e then TypeError_read e "message" else e)
       end).
Proof.
  unfold schedule_settled, call_logger, side_effect_only, same_config. js_unfold.
  destruct h as [[mx rt lg lr rc] lo ti iv]; simpl.
  destruct c as [v|e]; [|destruct (nullish e) eqn:En]; destruct lg; simpl;
    rewrite ?En; simpl; intros [= <- <-]; simpl;
    repeat split; auto; try lia; try done.
Qed.

(** ** Counting tasks and invocations *)

Lemma running_tasks_snoc ts t :
  running_tasks (ts ++ [t]) = (running_tasks ts + weight t)%nat.
Proof.
  unfold running_tasks, weight. rewrite filter_app, length_app, filter_cons, filter_nil.
  destruct (is_running t); simpl; repeat case_decide; simpl; congruence.
Qed.

Lemma running_tasks_insert ts k t t' :
  ts !! k = Some t ->
  (running_tasks (<[k:=t']> ts) + weight t = running_tasks ts + weight t')%nat.
Proof.
  unfold running_tasks, weight. revert k.
  induction ts as [|a ts IH]; intros [|k]; simpl; try done.
  - intros [= ->]. rewrite !filter_cons.
    destruct (is_running t), (is_running t'); repeat case_decide; simpl; try done; lia.
  - intros H. specialize (IH _ H). rewrite !filter_cons.
    case_decide; simpl; lia.
Qed.

Lemma running_tasks_lookup ts k t :
  ts !! k = Some t -> (weight t ≤ running_tasks ts)%nat.
Proof.
  intros H.
  pose proof (running_tasks_insert ts k t {| op := op t; state := Waiting |} H) as Hw.
  change (weight {| op := op t; state := Waiting |}) with 0%nat in Hw. lia.
Qed.

Lemma occurrences_snoc k l j :
  occurrences k (l ++ [j]) = (occurrences k l + if decide (j = k) then 1 else 0)%nat.
Proof.
  unfold occurrences. rewrite filter_app, length_app, filter_cons, filter_nil.
  by case_decide.
Qed.

(** ** The invariant *)

Lemma same_config_trans l1 l2 l3 :
  same_config l1 l2 -> same_config l2 l3 -> same_config l1 l3.
Proof. unfold same_config. intuition congruence. Qed.

Lemma limiter_inv_fresh l :
  runningCount l = 0 -> limiter_inv l (fresh l).
Proof.
  intros Hrc. unfold limiter_inv, same_config, in_flight, invocations; simpl.
  rewrite Hrc. repeat split; auto; try lia; try done.
Qed.

Lemma limiter_inv_enter l0 h k o s h' :
  async_result (schedule side_effect_only k o h) = (s, h') ->
  same_config l0 (this h) ->
  runningCount (this h) ≤ Z.max 0 (maxParallel l0) ->
  occurrences k (invoked h) = 0%nat ->
  same_config l0 (this h') ∧
  runningCount (this h) + Z.of_nat (weight {| op := o; state := s |})
    ≤ runningCount (this h') ≤ Z.max 0 (maxParallel l0) ∧
  (s = Running -> callable (logger l0) = true) ∧
  invoked_as_state (logger l0) s (occurrences k (invoked h')) ∧
  (∀ j, j ≠ k -> occurrences j (invoked h') = occurrences j (invoked h)).
Proof.
  intros E Hc Hrc Hocc. apply schedule_effect in E as [Hc' E].
  pose proof (same_config_trans _ _ _ Hc Hc') as Hc''.
  destruct Hc as (Hm & _ & Hl & _). rewrite Hm, Hl in E.
  split; [done|]. unfold weight, is_running; simpl.
  destruct s; simpl.
  - destruct E as (? & -> & ->). repeat split; auto; try lia; done.
  - destruct E as (? & -> & -> & ? & ?). rewrite occurrences_snoc, Hocc.
    rewrite decide_True by done. repeat split; auto; try lia.
    intros j Hj. rewrite occurrences_snoc, decide_False by done. lia.
  - done.
  - destruct E as [(Hn & -> & E)|(Hy & _ & ? & -> & ->)].
    + rewrite Hocc. repeat split; auto; try lia; try done. congruence.
    + rewrite occurrences_snoc, Hocc, decide_True by done.
      repeat split; auto; try lia; try done.
      intros j Hj. rewrite occurrences_snoc, decide_False by done. lia.
Qed.

Lemma limiter_inv_step l0 w ev w' :
  limiter_inv l0 w -> step parallelLimiter ev w = Some w' -> limiter_inv l0 w'.
Proof.
  intros (Hc & Hrc & Hcall & Hinv & Hnew) Hs.
  destruct w as [h ts]. unfold in_flight, invocations in *. simpl in *.
  destruct ev as [o|k|k]; simpl in Hs.
  - (* a new call *)
    destruct (async_result _) as [s h'] eqn:E. injection Hs as <-.
    eapply limiter_inv_enter in E as (Hc' & Hrc' & Hrun & Hst & Hoth);
      [|done|lia|by apply Hnew].
    unfold limiter_inv, in_flight, invocations; simpl.
    rewrite running_tasks_snoc. split_and!; [done|lia|lia|..].
    + intros Hne. destruct (decide (running_tasks ts = 0%nat)); [|by apply Hcall].
      apply Hrun. unfold weight, is_running in Hne; simpl in Hne.
      destruct s; try lia; done.
    + intros j t [Hj|[Hle [Hz <-]%list_lookup_singleton_Some]]%lookup_app_Some.
      * rewrite Hoth; [by apply Hinv|]. apply lookup_lt_Some in Hj. lia.
      * replace j with (length ts) by lia. done.
    + intros j. rewrite length_app; simpl. intros Hj.
      rewrite Hoth by lia. apply Hnew. lia.
  - (* the admission loop re-checks *)
    destruct (ts !! k) as [[o []]|] eqn:Hk; try done.
    destruct (async_result _) as [s h'] eqn:E. injection Hs as <-.
    pose proof (Hinv _ _ Hk) as Hzero; simpl in Hzero.
    eapply limiter_inv_enter in E as (Hc' & Hrc' & Hrun & Hst & Hoth);
      [|done|lia|done].
    pose proof (running_tasks_insert ts k _ {| op := o; state := s |} Hk) as Hw.
    change (weight {| op := o; state := Waiting |}) with 0%nat in Hw.
    unfold limiter_inv, in_flight, invocations; simpl.
    split_and!; [done|lia|lia|..].
    + intros Hne. destruct (decide (running_tasks ts = 0%nat)); [|by apply Hcall].
      apply Hrun. unfold weight, is_running in Hw; simpl in Hw.
      destruct s; try lia; done.
    + intros j t [(-> & <- & _)|[Hne Hj]]%list_lookup_insert_Some; [done|].
      rewrite Hoth by done. by apply Hinv.
    + intros j. rewrite length_insert. intros Hj.
      rewrite Hoth; [by apply Hnew|]. apply lookup_lt_Some in Hk. lia.
  - (* the operation of call [k] settles *)
    destruct (ts !! k) as [[o []]|] eqn:Hk; try done.
    destruct (resumption o) as [r|]; [|done].
    destruct (async_result _) as [s h'] eqn:E. injection Hs as <-.
    pose proof (Hinv _ _ Hk) as Hone; simpl in Hone.
    pose proof (running_tasks_insert ts k _ {| op := o; state := s |} Hk) as Hw.
    change (weight {| op := o; state := Running |}) with 1%nat in Hw.
    pose proof (running_tasks_lookup ts k _ Hk) as Hge.
    change (weight {| op := o; state := Running |}) with 1%nat in Hge.
    assert (callable (logger l0) = true) as Hlg by (apply Hcall; lia).
    apply schedule_settled_effect in E as (Hc' & Hi & _ & Hs1 & Hs2 & _ & E).
    destruct Hc as (Hm & Hr & Hl & Hlr). rewrite Hl in E.
    destruct (E Hlg) as [Hdec Hs3]. clear E.
    assert (weight {| op := o; state := s |} = 0%nat) as Hw0
      by (unfold weight, is_running; simpl; by destruct s).
    unfold limiter_inv, in_flight, invocations; simpl. rewrite Hi.
    split_and!; [by eapply same_config_trans|lia|lia|done|..].
    + intros j t [(-> & <- & _)|[Hne Hj]]%list_lookup_insert_Some; [|by apply Hinv].
      simpl. rewrite Hone. destruct s; simpl; auto; done.
    + intros j. rewrite length_insert. apply Hnew.
Qed.

Lemma limiter_inv_reachable l w :
  runningCount l = 0 ->
  reachable parallelLimiter (fresh l) w -> limiter_inv l w.
Proof.
  intros Hrc. apply reachable_ind.
  - by apply limiter_inv_fresh.
  - intros ? ? ? _. apply limiter_inv_step.
Qed.

(** ** The logger calls of a segment *)

Lemma schedule_log k o h s h' :
  async_result (schedule side_effect_only k o h) = (s, h') ->
  ∃ l, log h' = log h ++ l ∧ Forall (logged_by (logger (this h))) l ∧
       (s = Running -> Forall (λ e, polling_diag e.2 = false) l).
Proof.
  unfold schedule, invoke, call_logger, side_effect_only, asyncTimeout, logged_by. js_unfold.
  destruct h as [[mx rt lg lr rc] lo ti iv]; simpl.
  destruct (Z.geb_spec rc mx); destruct lr, lg, o; simpl; intros [= <- <-]; simpl;
    first [ by exists []; rewrite app_nil_r
          | eexists [_]; split_and!; [done| |];
            [apply Forall_singleton; simpl; by eexists
            |intros; try done; by apply Forall_singleton] ].
Qed.

Lemma schedule_settled_log c h s h' :
  async_result (schedule_settled side_effect_only c h) = (s, h') ->
  ∃ l, log h' = log h ++ l ∧ Forall (logged_by (logger (this h))) l.
Proof.
  unfold schedule_settled, call_logger, side_effect_only, logged_by. js_unfold.
  destruct h as [[mx rt lg lr rc] lo ti iv]; simpl.
  destruct c as [v|e]; [|destruct (nullish e) eqn:En]; destruct lg; simpl;
    rewrite ?En; simpl; intros [= <- <-]; simpl;
    first [ by exists []; rewrite app_nil_r
          | eexists [_]; split; [done|];
            apply Forall_singleton; simpl; by eexists ].
Qed.

Lemma log_reachable l w :
  reachable parallelLimiter (fresh l) w ->
  same_config l (this (mem w)) ∧ Forall (logged_by (logger l)) (log (mem w)).
Proof.
  intros Hr. pattern w. revert w Hr. apply reachable_ind.
  - unfold same_config; simpl. by split_and!.
  - intros [h ts] ev w' _ [Hc Hl] Hs; simpl in *.
    assert (∀ (s : status) h', (∃ l0, log h' = log h ++ l0 ∧ Forall (logged_by (logger (this h))) l0) ->
                    same_config (this h) (this h') ->
                    same_config l (this h') ∧ Forall (logged_by (logger l)) (log h')) as Hgo.
    { intros _ h' (l0 & -> & Hl0) Hc'. split; [by eapply same_config_trans|].
      apply Forall_app. split; [done|]. destruct Hc as (_ & _ & <- & _). done. }
    destruct ev as [o|k|k]; simpl in Hs.
    + destruct (async_result _) as [s h'] eqn:E. injection Hs as <-; simpl.
      apply (Hgo s).
      * apply schedule_log in E as (l0 & ? & ? & _). eauto.
      * by apply schedule_effect in E as [? _].
    + destruct (ts !! k) as [[o []]|] eqn:Hk; try done.
      destruct (async_result _) as [s h'] eqn:E. injection Hs as <-; simpl.
      apply (Hgo s).
      * apply schedule_log in E as (l0 & ? & ? & _). eauto.
      * by apply schedule_effect in E as [? _].
    + destruct (ts !! k) as [[o []]|] eqn:Hk; try done.
      destruct (resumption o) as [r|]; [|done].
      destruct (async_result _) as [s h'] eqn:E. injection Hs as <-; simpl.
      apply (Hgo s).
      * by apply schedule_settled_log in E.
      * by apply schedule_settled_effect in E as [? _].
Qed.

(** ** A limiter without capacity *)

Lemma schedule_blocked k o h :
  maxParallel (this h) ≤ runningCount (this h) ->
  callable (logger (this h)) = true ->
  ∃ h', async_result (schedule side_effect_only k o h) = (Waiting, h') ∧ this h' = this h ∧
        invoked h' = invoked h ∧ timeouts h' = timeouts h ++ [retryMs (this h)].
Proof.
  unfold schedule, call_logger, asyncTimeout, side_effect_only. js_unfold.
  destruct h as [[mx rt lg lr rc] lo ti iv]; simpl. intros Hfull Hlg.
  rewrite geb_true by lia.
  destruct lg; try done. destruct lr; simpl; by eexists.
Qed.

Lemma blocked_reachable l w :
  runningCount l = 0 -> maxParallel l ≤ 0 -> callable (logger l) = true ->
  reachable parallelLimiter (fresh l) w ->
  this (mem w) = l ∧ invoked (mem w) = [] ∧
  Forall (λ t, state t = Waiting) (tasks w).
Proof.
  intros Hrc Hmax Hlg Hr. pattern w. revert w Hr. apply reachable_ind; [done|].
  intros [h ts] ev w' _ (Hthis & Hinv & Hts) Hs; simpl in *.
  assert (∀ k o, ∃ h', async_result (schedule side_effect_only k o h) = (Waiting, h') ∧
                       this h' = l ∧ invoked h' = []) as Hgo.
  { intros k o. destruct (schedule_blocked k o h) as (h' & ? & ? & ? & _);
      [rewrite Hthis; lia|by rewrite Hthis|]. exists h'. split_and!; congruence. }
  destruct ev as [o|k|k]; simpl in Hs.
  - destruct (Hgo (length ts) o) as (h' & E & ? & ?). rewrite E in Hs.
    injection Hs as <-; simpl.
    split_and!; [done..|]. apply Forall_app. split; [done|]. by apply Forall_singleton.
  - destruct (ts !! k) as [[o []]|] eqn:Hk; try done.
    destruct (Hgo k o) as (h' & E & ? & ?). rewrite E in Hs.
    injection Hs as <-; simpl.
    split_and!; [done..|]. by apply Forall_insert.
  - destruct (ts !! k) as [[o []]|] eqn:Hk; try done.
    eapply Forall_lookup_1 in Hts; [|done]. done.
Qed.

(** ** [noLimiter] *)

Lemma noLimiter_schedule_effect k o h :
  async_result (noLimiter_schedule k o h) =
    (match o with SyncThrow e => Rejected e | _ => Running end,
     push_invoked k h).
Proof. unfold noLimiter_schedule, invoke. js_unfold. by destruct o. Qed.

Lemma noLimiter_settled_effect c h :
  async_result (noLimiter_settled c h) =
    (match c with Normal v => Resolved v | Throw e => Rejected e end, h).
Proof. unfold noLimiter_settled. js_unfold. by destruct c. Qed.

Lemma noLimiter_reachable l w :
  reachable noLimiter (fresh l) w ->
  this (mem w) = l ∧ log (mem w) = [] ∧ timeouts (mem w) = [] ∧
  (∀ k t, tasks w !! k = Some t ->
          invocations k w = 1%nat ∧ mirrors (op t) (state t)) ∧
  (∀ k, (length (tasks w) ≤ k)%nat -> invocations k w = 0%nat).
Proof.
  intros Hr. pattern w. revert w Hr. apply reachable_ind.
  - split_and!; done.
  - intros [h ts] ev w' _ (Hthis & Hlog & Hti & Hts & Hnew) Hs.
    unfold invocations in *; simpl in *.
    destruct ev as [o|k|k]; simpl in Hs.
    + rewrite noLimiter_schedule_effect in Hs. injection Hs as <-; simpl.
      split_and!; try done.
      * intros j t [Hj|[Hle [Hz <-]%list_lookup_singleton_Some]]%lookup_app_Some.
        -- rewrite occurrences_snoc, decide_False.
           ++ destruct (Hts _ _ Hj). split; [lia|done].
           ++ apply lookup_lt_Some in Hj. lia.
        -- replace j with (length ts) by lia.
           rewrite occurrences_snoc, decide_True, Hnew by done.
           split; [done|]. simpl. destruct o; simpl; auto; done.
      * intros j. rewrite length_app; simpl. intros Hj.
        rewrite occurrences_snoc, decide_False, Hnew by lia. done.
    + destruct (ts !! k) as [[o []]|] eqn:Hk; try done.
      by destruct (Hts _ _ Hk) as [_ ?].
    + destruct (ts !! k) as [[o []]|] eqn:Hk; try done.
      destruct (resumption o) as [r|] eqn:Hr; [|done].
      rewrite noLimiter_settled_effect in Hs. injection Hs as <-; simpl.
      split_and!; try done.
      * intros j t [(-> & <- & _)|[Hne Hj]]%list_lookup_insert_Some; [|by apply Hts].
        destruct (Hts _ _ Hk) as [? _]. split; [done|]. simpl.
        destruct o; simplify_eq/=; auto.
      * intros j. rewrite length_insert. apply Hnew.
Qed.

(** ** A logger that returns from every call *)

Lemma schedule_returns fn k o h :
  returns_normally fn (logger (this h)) ->
  schedule fn k o h = schedule side_effect_only k o h.
Proof.
  unfold schedule, invoke, call_logger, asyncTimeout, side_effect_only. js_unfold.
  destruct h as [[mx rt lg lr rc] lo ti iv]; simpl. intros Hq.
  destruct (rc >=? mx), lr, lg; simpl in *; rewrite ?Hq; done.
Qed.

Lemma schedule_settled_returns fn c h :
  returns_normally fn (logger (this h)) ->
  schedule_settled fn c h = schedule_settled side_effect_only c h.
Proof.
  unfold schedule_settled, call_logger, side_effect_only. js_unfold.
  destruct h as [[mx rt lg lr rc] lo ti iv]; simpl. intros Hq.
  destruct c as [v|e]; [|destruct (nullish e) eqn:En]; destruct lg; simpl in *;
    rewrite ?Hq, ?En; js_unfold; simpl; rewrite ?Hq; done.
Qed.

Lemma step_returns fn ev w :
  returns_normally fn (logger (this (mem w))) ->
  step (limiter_with fn) ev w = step parallelLimiter ev w.
Proof.
  intros Hq. destruct ev as [o|k|k]; simpl.
  - by rewrite schedule_returns.
  - destruct (tasks w !! k) as [[o []]|]; try done. by rewrite schedule_returns.
  - destruct (tasks w !! k) as [[o []]|]; try done.
    destruct (resumption o); [|done]. by rewrite schedule_settled_returns.
Qed.

Lemma reachable_returns fn l w :
  returns_normally fn (logger l) ->
  reachable (limiter_with fn) (fresh l) w -> reachable parallelLimiter (fresh l) w.
Proof.
  intros Hq. apply reachable_ind; [apply rtc_refl|].
  intros w1 ev w2 _ Hr Hs. eapply rtc_r; [exact Hr|]. exists ev.
  rewrite <- Hs. symmetry. apply step_returns.
  apply log_reachable in Hr as [(_ & _ & -> & _) _]. done.
Qed.

Lemma run_returns fn l evs w :
  returns_normally fn (logger l) -> reachable parallelLimiter (fresh l) w ->
  run (limiter_with fn) evs w = run parallelLimiter evs w.
Proof.
  intros Hq. revert w. induction evs as [|ev evs IH]; intros w Hr; simpl; [done|].
  rewrite step_returns by (apply log_reachable in Hr as [(_ & _ & -> & _) _]; done).
  destruct (step parallelLimiter ev w) as [w'|] eqn:Hs; [|done].
  apply IH. eapply rtc_r; [exact Hr|by exists ev].
Qed.

(** ** Any logger *)

Lemma schedule_any fn k o h s h' :
  async_result (schedule fn k o h) = (s, h') ->
  same_config (this h) (this h') ∧
  (runningCount (this h') = runningCount (this h) ∨
   runningCount (this h) < maxParallel (this h) ∧
   runningCount (this h') = runningCount (this h) + 1).
Proof.
  unfold schedule, invoke, call_logger, asyncTimeout, same_config. js_unfold.
  destruct h as [[mx rt lg lr rc] lo ti iv]; simpl.
  destruct (Z.geb_spec rc mx); destruct lr, lg, o; simpl;
    repeat match goal with |- context [fn ?i ?l ?d] => destruct (fn i l d) end; simpl;
    intros [= <- <-]; simpl; split_and!; auto; right; lia.
Qed.

Lemma schedule_settled_any fn c h s h' :
  async_result (schedule_settled fn c h) = (s, h') ->
  same_config (this h) (this h') ∧
  runningCount (this h) - 2 ≤ runningCount (this h') ≤ runningCount (this h) - 1.
Proof.
  unfold schedule_settled, call_logger, same_config. js_unfold.
  destruct h as [[mx rt lg lr rc] lo ti iv]; simpl.
  destruct c as [v|e]; [|destruct (nullish e) eqn:En]; destruct lg; simpl;
    repeat match goal with |- context [fn ?i ?l ?d] => destruct (fn i l d) end; simpl;
    repeat match goal with |- context [nullish ?e] => destruct (nullish e) end; simpl;
    repeat match goal with |- context [fn ?i ?l ?d] => destruct (fn i l d) end; simpl;
    intros [= <- <-]; simpl; split_and!; auto; lia.
Qed.

Lemma config_reachable fn l w :
  runningCount l = 0 ->
  reachable (limiter_with fn) (fresh l) w ->
  same_config l (this (mem w)) ∧
  runningCount (this (mem w)) ≤ Z.max 0 (maxParallel l).
Proof.
  intros Hrc Hr. pattern w. revert w Hr. apply reachable_ind.
  - unfold same_config; simpl. rewrite Hrc. split_and!; try done. lia.
  - intros [h ts] ev w' _ [Hc Hle] Hs; simpl in *.
    pose proof Hc as (Hm & _).
    destruct ev as [o|k|k]; simpl in Hs.
    + destruct (async_result _) as [s h'] eqn:E. injection Hs as <-; simpl.
      apply schedule_any in E as [Hc' E].
      split; [by eapply same_config_trans|]. lia.
    + destruct (ts !! k) as [[o []]|] eqn:Hk; try done.
      destruct (async_result _) as [s h'] eqn:E. injection Hs as <-; simpl.
      apply schedule_any in E as [Hc' E].
      split; [by eapply same_config_trans|]. lia.
    + destruct (ts !! k) as [[o []]|] eqn:Hk; try done.
      destruct (resumption o) as [r|]; [|done].
      destruct (async_result _) as [s h'] eqn:E. injection Hs as <-; simpl.
      apply schedule_settled_any in E as [Hc' E].
      split; [by eapply same_config_trans|]. lia.
Qed.

End LimiterFacts.

Section BatchFacts.
Import Batch.

Lemma batch_reachable_ind (a : arguments) (P : world -> Prop) :
  P (allSettledParallelLimited a) ->
  (∀ w ev w', reachable a w -> P w -> step a ev w = Some w' -> P w') ->
  ∀ w, reachable a w -> P w.
Proof.
  intros H0 Hstep w Hr.
  assert (reachable a w ∧ P w) as [_ ?]; [|done].
  revert w Hr. unfold reachable. apply rtc_ind_r.
  - split; [apply rtc_refl | done].
  - intros w w' Hr [ev Hev] [_ IH]. split; [|by eauto].
    eapply rtc_r; [done | by exists ev].
Qed.

Lemma batch_run_reachable a evs w :
  run a evs (allSettledParallelLimited a) = Some w -> reachable a w.
Proof.
  unfold reachable. generalize (allSettledParallelLimited a) as w0.
  induction evs as [|ev evs IH]; simpl; intros w0.
  - intros [= ->]. apply rtc_refl.
  - destruct (step a ev w0) as [w1|] eqn:E; [|done].
    intros H. eapply rtc_l; [by exists ev | by apply IH].
Qed.

Lemma reachable_step a w ev w' :
  reachable a w -> step a ev w = Some w' -> reachable a w'.
Proof. intros Hr Hs. eapply rtc_r; [done | by exists ev]. Qed.

(** ** One iteration of the [for] loop *)

Lemma for_loop_cons a i job rest h :
  for_loop a i (job :: rest) h =
    if runningCount h >=? maxParallel a then
      match suspended a (RunningJobs i (length (jobs a)) (runningCount h) (retryMs a))
                      (retryMs a) h with
      | (Normal _, h') => (Normal (AdmissionWait i), h')
      | (Throw e, h') => (Throw e, h')
      end
    else
      match logger a with
      | JFun id _ =>
          match dispatch_throws (jobToPromise a job) with
          | Some e =>
              (Throw e, push_invoked i
                 (push_log (id, StartedJob i (length (jobs a)) (Z.succ (runningCount h)))
                    (set_runningCount Z.succ h)))
          | None => for_loop a (S i) rest (launched a id i h)
          end
      | _ => (Throw (TypeError_call "logger"), set_runningCount Z.succ h)
      end.
Proof.
  simpl. unfold suspended, launched, dispatch, call_logger, asyncTimeout. js_unfold.
  destruct (Z.geb_spec (runningCount h) (maxParallel a)); destruct (logRetries a), (logger a); simpl; try done;
    destruct (jobToPromise a job); done.
Qed.

Lemma drain_unfold a h :
  drain a h =
    if runningCount h >=? 1 then
      match suspended a (WaitingForRuns (runningCount h) (retryMs a)) (5 * retryMs a) h with
      | (Normal _, h') => (Normal DrainWait, h')
      | (Throw e, h') => (Throw e, h')
      end
    else (Normal Resolved, h).
Proof.
  unfold drain, suspended, call_logger, asyncTimeout. js_unfold.
  destruct (Z.geb_spec (runningCount h) 1); destruct (logRetries a), (logger a); done.
Qed.

Lemma suspended_effect a d delay h c h' :
  suspended a d delay h = (c, h') ->
  runningCount h' = runningCount h ∧ runs h' = runs h ∧
  invoked h' = invoked h ∧ pending h' = pending h ∧
  (∃ l, log h' = log h ++ l ∧ Forall (λ e, e.2 = d) l) ∧
  (c = Normal () ∧ timeouts h' = timeouts h ++ [delay] ∨
   (∃ e, c = Throw e) ∧ timeouts h' = timeouts h ∧ callable (logger a) = false).
Proof.
  unfold suspended. destruct (logRetries a), (logger a); intros [= <- <-]; simpl;
    split_and!; try done; eauto;
    first [ by exists []; rewrite app_nil_r
          | eexists [_]; split; [done|]; by apply Forall_singleton ].
Qed.

(** ** The counter never exceeds the capacity *)

Lemma drain_count a h :
  count_inv a h -> count_inv a (mem (async_result (drain a h))).
Proof.
  unfold count_inv. intros H. rewrite drain_unfold. destruct (Z.geb_spec (runningCount h) 1); [|done].
  destruct (suspended _ _ _ _) as [[[]|e] h'] eqn:E;
    apply suspended_effect in E as (Hrc & _ & _ & Hp & _); simpl; by rewrite Hrc, Hp.
Qed.

Lemma for_loop_count a i rest h :
  count_inv a h -> count_inv a (mem (async_result (for_loop a i rest h))).
Proof.
  revert i h. induction rest as [|job rest IH]; intros i h H.
  - by apply drain_count.
  - rewrite for_loop_cons. destruct (Z.geb_spec (runningCount h) (maxParallel a)) as [Hfull|Hfull].
    + destruct (suspended _ _ _ _) as [[[]|e] h'] eqn:E;
        apply suspended_effect in E as (? & _ & _ & ? & _);
        unfold count_inv in *; simpl; congruence.
    + unfold count_inv in H.
      destruct (logger a); try (unfold count_inv; simpl; lia).
      destruct (jobToPromise a job); try apply IH;
        unfold count_inv; simpl; rewrite ?length_app; simpl; lia.
Qed.

Lemma take_out_Permutation j l p : take_out j l = Some p -> l ≡ₚ j :: p.
Proof.
  revert p. induction l as [|x l IH]; simpl; intros p; [done|].
  case_decide as Hx.
  - intros [= <-]. by rewrite Hx.
  - destruct (take_out j l) as [p'|]; simpl; [|done].
    intros [= <-]. rewrite (IH p' eq_refl). apply Permutation_swap.
Qed.

Lemma take_out_length j l p : take_out j l = Some p -> length l = S (length p).
Proof. intros H%take_out_Permutation. by rewrite H. Qed.

Lemma count_inv_step a w ev w' :
  count_inv a (mem w) -> step a ev w = Some w' -> count_inv a (mem w').
Proof.
  destruct w as [h m]. destruct ev as [|j]; simpl.
  - destruct m; intros H [= <-]; [by apply for_loop_count|by apply drain_count].
  - destruct (take_out j (pending h)) as [p|] eqn:Hp; [|done].
    destruct (jobs a !! j) as [job|]; [|done].
    apply take_out_length in Hp. unfold count_inv.
    destruct (settlement _) as [[v|e]|]; intros H [= <-]; simpl; lia.
Qed.

Lemma count_inv_reachable a w : reachable a w -> count_inv a (mem w).
Proof.
  intros Hr. pattern w. revert w Hr. apply batch_reachable_ind.
  - apply for_loop_count. unfold count_inv; simpl. lia.
  - intros ? ? ? _. apply count_inv_step.
Qed.

(** ** Every job gets its record *)

Lemma heap_inv_ext a i h h' :
  runningCount h' = runningCount h -> runs h' = runs h -> pending h' = pending h ->
  heap_inv a i h -> heap_inv a i h'.
Proof. unfold heap_inv. by intros -> -> ->. Qed.

Lemma heap_inv_launched a id i h :
  (i < length (jobs a))%nat -> heap_inv a i h -> heap_inv a (S i) (launched a id i h).
Proof.
  intros Hi (_ & Hrc & completed & Hperm & Hruns). unfold heap_inv.
  rewrite seq_S. simpl.
  split_and!; [lia|rewrite length_app; simpl; lia|].
  exists completed. split; [|done].
  by rewrite app_assoc, Hperm.
Qed.

Lemma heap_inv_settle a i h j p job r :
  heap_inv a i h -> take_out j (pending h) = Some p ->
  jobs a !! j = Some job -> settled_record a job = Some r ->
  heap_inv a i (push_run r (set_runningCount Z.pred (set_pending p h))).
Proof.
  intros (Hi & Hrc & completed & Hperm & Hruns) Hp Hj Hr. unfold heap_inv; simpl.
  pose proof (take_out_length _ _ _ Hp). split_and!; [done|lia|].
  exists (completed ++ [j]). split.
  - rewrite <- Hperm, (take_out_Permutation _ _ _ Hp), <- app_assoc. done.
  - apply Forall2_app; [done|]. constructor; [by eauto|constructor].
Qed.

Lemma drain_inv a h :
  heap_inv a (length (jobs a)) h -> batch_inv a (async_result (drain a h)).
Proof.
  intros H. rewrite drain_unfold. destruct (Z.geb_spec (runningCount h) 1) as [Hrc|Hrc].
  - destruct (suspended _ _ _ _) as [[[]|e] h'] eqn:E; [|done].
    apply suspended_effect in E as (? & ? & _ & ? & _).
    by apply (heap_inv_ext _ _ h).
  - unfold batch_inv; simpl. split; [done|]. destruct H as (_ & Hlen & _).
    destruct (pending h); [done|]. simpl in Hlen. lia.
Qed.

Lemma for_loop_inv a i rest h :
  heap_inv a i h -> length (jobs a) = (i + length rest)%nat ->
  batch_inv a (async_result (for_loop a i rest h)).
Proof.
  revert i h. induction rest as [|job rest IH]; intros i h H Hlen; simpl in Hlen.
  - apply drain_inv. by replace (length (jobs a)) with i by lia.
  - rewrite for_loop_cons. destruct (Z.geb_spec (runningCount h) (maxParallel a)) as [Hfull|Hfull].
    + destruct (suspended _ _ _ _) as [[[]|e] h'] eqn:E; [|done].
      apply suspended_effect in E as (? & ? & _ & ? & _).
      unfold batch_inv; simpl. split; [lia|]. by apply (heap_inv_ext _ _ h).
    + destruct (logger a); try done.
      destruct (jobToPromise a job); try done;
        (apply IH; [apply heap_inv_launched; [lia|done]|lia]).
Qed.

Lemma batch_inv_step a w ev w' :
  batch_inv a w -> step a ev w = Some w' -> batch_inv a w'.
Proof.
  destruct w as [h m]. destruct ev as [|j]; simpl.
  - destruct m; unfold batch_inv; simpl; intros H [= <-].
    + destruct H. apply for_loop_inv; [done|]. rewrite length_drop. lia.
    + by apply drain_inv.
  - destruct (take_out j (pending h)) as [p|] eqn:Hp; [|done].
    destruct (jobs a !! j) as [job|] eqn:Hj; [|done].
    destruct (settlement (jobToPromise a job)) as [c|] eqn:Hc; [|done].
    assert (∃ r, settled_record a job = Some r ∧
                 match c with
                 | Normal v => on_fulfilled v (set_pending p h)
                 | Throw e => on_rejected job e (set_pending p h)
                 end = push_run r (set_runningCount Z.pred (set_pending p h)))
      as (r & Hr & Heq).
    { unfold settled_record. destruct (jobToPromise a job); simplify_eq/=; eauto. }
    intros H Hs.
    assert (w' = {| mem := push_run r (set_runningCount Z.pred (set_pending p h));
                    main := m |}) as -> by (destruct c; congruence).
    unfold batch_inv in *; simpl in *. destruct m; try done.
    + destruct H. split; [done|]. by eapply heap_inv_settle.
    + by eapply heap_inv_settle.
    + destruct H as [_ Hnil]. by rewrite Hnil in Hp.
Qed.

Lemma batch_inv_reachable a w : reachable a w -> batch_inv a w.
Proof.
  intros Hr. pattern w. revert w Hr. apply batch_reachable_ind.
  - apply for_loop_inv; [|done]. unfold heap_inv; simpl.
    split_and!; [lia|done|]. by exists [].
  - intros ? ? ? _. apply batch_inv_step.
Qed.

(** ** The eager loop resolves the call *)

Lemma drive_reachable a n w : reachable a w -> reachable a (drive a n w).
Proof.
  revert w. induction n as [|n IH]; intros w Hr; simpl; [done|].
  destruct (next_event w) as [ev|]; [|done].
  destruct (step a ev w) as [w'|] eqn:Hs; [|done].
  apply IH. by eapply reachable_step.
Qed.


Section Liveness.
Variable a : arguments.
Hypothesis Hlogger : callable (logger a) = true.
Hypothesis Hsettle : ∀ job, job ∈ jobs a -> is_Some (settlement (jobToPromise a job)).






End Liveness.

(** ** The records of a resolved call *)

Lemma settled_record_well_formed a job r :
  settled_record a job = Some r -> well_formed r.
Proof.
  unfold settled_record, well_formed.
  destruct (jobToPromise a job); intros [= <-]; simpl; eauto.
Qed.

Lemma resolved_records a w :
  batch_inv a w -> main w = Resolved ->
  length (runs (mem w)) = length (jobs a) ∧
  (∃ rs, Forall2 (λ job r, settled_record a job = Some r) (jobs a) rs ∧
         runs (mem w) ≡ₚ rs) ∧
  Forall well_formed (runs (mem w)).
Proof.
  destruct w as [h m]; unfold batch_inv; simpl. intros Hinv ->.
  destruct Hinv as [(_ & _ & completed & Hperm & Hruns) Hnil].
  rewrite Hnil, app_nil_r in Hperm.
  destruct (Permutation_Forall2 Hperm Hruns) as (rs & Hrs & Hall).
  assert (Forall2 (λ job r, settled_record a job = Some r) (jobs a) rs) as Hjobs.
  { apply Forall2_same_length_lookup. split.
    - apply Forall2_length in Hall. by rewrite length_seq in Hall.
    - intros i job r Hjob Hr.
      assert (seq 0 (length (jobs a)) !! i = Some i) as Hi
        by (apply lookup_seq; split; [done|by eapply lookup_lt_Some]).
      eapply Forall2_lookup_l in Hi as (r' & Hr' & Hx); [|exact Hall].
      simpl in Hx. destruct Hx as (job' & Hjob' & Hrec).
      congruence. }
  split_and!.
  - rewrite Hrs. symmetry. by eapply Forall2_length.
  - by exists rs.
  - rewrite Hrs. eapply Forall2_Forall_r; [done|].
    apply Forall_forall. intros job _ r. apply settled_record_well_formed.
Qed.

(** ** A batch that fits the capacity *)

Lemma quiet_suspended_drain a h c h' :
  suspended a (WaitingForRuns (runningCount h) (retryMs a)) (5 * retryMs a) h = (c, h') ->
  quiet a h -> quiet a h'.
Proof.
  unfold suspended, quiet. intros E (Hl & Hp & Ht).
  destruct (logRetries a), (logger a); injection E as <- <-; simpl;
    split_and!; try done;
    try (apply Forall_app; split; [done|by apply Forall_singleton]);
    try (apply Forall_app; split; [auto|by apply Forall_singleton]).
Qed.

Lemma drain_quiet a h :
  quiet a h -> quiet a (mem (async_result (drain a h))).
Proof.
  intros H. rewrite drain_unfold. destruct (Z.geb_spec (runningCount h) 1); [|done].
  destruct (suspended _ _ _ _) as [[[]|e] h'] eqn:E; simpl;
    by eapply quiet_suspended_drain.
Qed.

Lemma for_loop_quiet a i rest h :
  runningCount h + Z.of_nat (length rest) ≤ maxParallel a -> quiet a h ->
  let w := async_result (for_loop a i rest h) in
  quiet a (mem w) ∧ ∀ i', main w ≠ AdmissionWait i'.
Proof.
  revert i h. induction rest as [|job rest IH]; intros i h Hroom Hq; cbv zeta.
  - change (for_loop a i [] h) with (drain a h).
    split; [by apply drain_quiet|]. rewrite drain_unfold.
    destruct (Z.geb_spec (runningCount h) 1); [|done]. by destruct (suspended _ _ _ _) as [[[]|e] h'].
  - rewrite for_loop_cons. simpl in Hroom. rewrite geb_false by lia.
    destruct (logger a) eqn:Hlg; try done.
    assert (quiet a (launched a id i h)) as Hq'.
    { destruct Hq as (Hl & Hp & Ht). unfold quiet; simpl. split_and!; [|intros ?|done];
        (apply Forall_app; split; [auto|by apply Forall_singleton]). }
    destruct (dispatch_throws (jobToPromise a job)); [|apply IH; [simpl; lia|done]].
    split; [|done]. destruct Hq as (Hl & Hp & Ht). unfold quiet; simpl.
    split_and!; [|intros ?|done];
      (apply Forall_app; split; [auto|by apply Forall_singleton]).
Qed.

Lemma roomy_reachable a w :
  Z.of_nat (length (jobs a)) ≤ maxParallel a -> reachable a w ->
  quiet a (mem w) ∧ ∀ i, main w ≠ AdmissionWait i.
Proof.
  intros Hroom Hr. pattern w. revert w Hr. apply batch_reachable_ind.
  - apply for_loop_quiet; [simpl; lia|]. unfold quiet; simpl. by split_and!.
  - intros [h m] ev w' _ [Hq Hm] Hs; simpl in *. destruct ev as [|j]; simpl in Hs.
    + destruct m; try done; [by destruct (Hm i)|]. simpl in Hs. injection Hs as <-.
      split; [by apply drain_quiet|]. rewrite drain_unfold.
      destruct (Z.geb_spec (runningCount h) 1); [|done]. by destruct (suspended _ _ _ _) as [[[]|e] h'].
    + destruct (take_out j (pending h)); [|done].
      destruct (jobs a !! j); [|done].
      destruct (settlement _) as [[]|]; [..|done]; injection Hs as <-; done.
Qed.

(** ** A batch without capacity, and the empty batch *)

Lemma blocked_batch_reachable a w :
  jobs a ≠ [] -> maxParallel a ≤ 0 -> callable (logger a) = true ->
  reachable a w ->
  main w = AdmissionWait 0 ∧ runningCount (mem w) = 0 ∧ runs (mem w) = [] ∧
  invoked (mem w) = [] ∧ pending (mem w) = [].
Proof.
  intros Hjobs Hmax Hlg.
  assert (∀ h, runningCount h = 0 -> runs h = [] -> invoked h = [] -> pending h = [] ->
    let w := async_result (for_loop a 0 (jobs a) h) in
    main w = AdmissionWait 0 ∧ runningCount (mem w) = 0 ∧ runs (mem w) = [] ∧
    invoked (mem w) = [] ∧ pending (mem w) = []) as Hgo.
  { intros h Hrc Hru Hi Hp. destruct (jobs a) as [|job rest]; [done|].
    cbv zeta. rewrite for_loop_cons, geb_true by lia.
    destruct (suspended _ _ _ _) as [c h'] eqn:E.
    apply suspended_effect in E as (? & ? & ? & ? & _ & [[-> _]|(_ & _ & ?)]);
      [|congruence]. simpl. split_and!; congruence. }
  intros Hr. pattern w. revert w Hr. apply batch_reachable_ind.
  - by apply Hgo.
  - intros [h m] ev w' _ (Hm & Hrc & Hru & Hi & Hp) Hs; simpl in *. subst m.
    destruct ev as [|j]; simpl in Hs.
    + injection Hs as <-. rewrite drop_0. by apply Hgo.
    + by rewrite Hp in Hs.
Qed.

Lemma empty_batch_reachable a w :
  jobs a = [] -> reachable a w -> w = {| mem := empty_heap; main := Resolved |}.
Proof.
  intros Hjobs Hr. pattern w. revert w Hr. apply batch_reachable_ind.
  - unfold allSettledParallelLimited. by rewrite Hjobs.
  - intros w ev w' _ -> Hs. by destruct ev.
Qed.

End BatchFacts.

(** * The properties of the specification *)

(** C1. For every capacity of at least one, the operations launched and not
    yet completed never outnumber the capacity: in every state a limiter
    reaches under any interleaving of [schedule] calls, timers and
    settlements, and in every state a batch run reaches, the operations in
    flight are at most [runningCount], and [runningCount] is at most
    [maxParallel]. *)
Theorem running_count_never_exceeds_capacity (capacity : Z) :
  1 ≤ capacity ->
  (∀ o w,
     Limiter.maxParallel (Limiter.constructor o) = capacity ->
     Limiter.reachable Limiter.parallelLimiter (Limiter.fresh (Limiter.constructor o)) w ->
     Z.of_nat (Limiter.in_flight w) ≤ Limiter.runningCount (Limiter.this (Limiter.mem w))
     ∧ Limiter.runningCount (Limiter.this (Limiter.mem w)) ≤ capacity) ∧
  (∀ a w,
     Batch.maxParallel a = capacity -> Batch.reachable a w ->
     Z.of_nat (length (Batch.pending (Batch.mem w))) ≤ Batch.runningCount (Batch.mem w)
     ∧ Batch.runningCount (Batch.mem w) ≤ capacity).
Proof.
  intros Hcap. split.
  - intros o w Hmax Hr.
    apply limiter_inv_reachable in Hr as (_ & Hb & _); [|done].
    rewrite Hmax in Hb. lia.
  - intros a w Hmax Hr. apply count_inv_reachable in Hr.
    unfold Batch.count_inv in Hr. rewrite Hmax in Hr. lia.
Qed.

Lemma running_count_never_exceeds_capacity_witness :
  1 ≤ 2 ∧
  (Z.of_nat (Limiter.in_flight Scenario.busy_limiter)
     ≤ Limiter.runningCount (Limiter.this (Limiter.mem Scenario.busy_limiter))
   ∧ Limiter.runningCount (Limiter.this (Limiter.mem Scenario.busy_limiter)) ≤ 2) ∧
  (Z.of_nat (length (Batch.pending (Batch.mem Scenario.mixed_running)))
     ≤ Batch.runningCount (Batch.mem Scenario.mixed_running)
   ∧ Batch.runningCount (Batch.mem Scenario.mixed_running) ≤ 2).
Proof.
  assert (1 ≤ 2) as Hcap by lia.
  destruct (running_count_never_exceeds_capacity 2 Hcap) as [Hl Hb].
  split; [exact Hcap|]. split.
  - apply (Hl Scenario.capacity2); [reflexivity|].
    apply (run_reachable _ (take 5 Scenario.three_calls)).
    vm_compute. reflexivity.
  - apply (Hb Scenario.mixed); [reflexivity|].
    apply (batch_run_reachable _ [Batch.Settled 1]).
    vm_compute. reflexivity.
Defined.





(** C3, on a job that throws before returning a promise.  The exception
    leaves [jobToPromise(job)] before [.then] and [.catch] are attached, so
    it leaves the [async] function: the batch of the single job [JNum 2]
    rejects with the error, [runs] stays empty, and no event can follow. *)
Theorem sync_throw_rejects_batch :
  Batch.main (Batch.allSettledParallelLimited Scenario.throwing) = Batch.Rejected Scenario.boom ∧
  Batch.runs (Batch.mem (Batch.allSettledParallelLimited Scenario.throwing)) = [] ∧
  Batch.runningCount (Batch.mem (Batch.allSettledParallelLimited Scenario.throwing)) = 1 ∧
  ∀ ev, Batch.step Scenario.throwing ev (Batch.allSettledParallelLimited Scenario.throwing) = None.
Proof. split_and!; try (vm_compute; reflexivity). by intros [|j]. Qed.

(** The same for any batch whose first job throws, with room for it and a
    logger that is a function. *)
Lemma first_job_throws_rejects a job rest e :
  Batch.jobs a = job :: rest -> Batch.jobToPromise a job = SyncThrow e ->
  1 ≤ Batch.maxParallel a -> callable (Batch.logger a) = true ->
  Batch.main (Batch.allSettledParallelLimited a) = Batch.Rejected e.
Proof.
  intros Hjobs Hjob Hcap Hlg. unfold Batch.allSettledParallelLimited.
  rewrite Hjobs, for_loop_cons, geb_false by (simpl; lia).
  destruct (Batch.logger a); try done. by rewrite Hjob.
Qed.

(** C4, on a provider that throws before returning a promise.  The call
    [promiseProvider()] sits above the [try]: on a limiter of capacity one
    the call rejects with the error, but [runningCount] stays at one with
    nothing in flight, and a later call polls without being launched. *)
Theorem sync_throw_keeps_slot :
  Limiter.tasks Scenario.leaked_limiter =
    [ {| Limiter.op := SyncThrow Scenario.boom; Limiter.state := Limiter.Rejected Scenario.boom |};
      {| Limiter.op := AsyncFulfil (JNum 1); Limiter.state := Limiter.Waiting |} ] ∧
  Limiter.runningCount (Limiter.this (Limiter.mem Scenario.leaked_limiter)) = 1 ∧
  Limiter.in_flight Scenario.leaked_limiter = 0%nat ∧
  Limiter.invoked (Limiter.mem Scenario.leaked_limiter) = [0%nat].
Proof. split_and!; vm_compute; reflexivity. Qed.

(** The same for any admitted call: the error is passed on, the counter is
    one more than before the call. *)
Lemma schedule_sync_throw fn k e h :
  Limiter.runningCount (Limiter.this h) < Limiter.maxParallel (Limiter.this h) ->
  callable (Limiter.logger (Limiter.this h)) = true ->
  returns_normally fn (Limiter.logger (Limiter.this h)) ->
  ∃ h', Limiter.async_result (Limiter.schedule fn k (SyncThrow e) h) = (Limiter.Rejected e, h') ∧
        Limiter.runningCount (Limiter.this h') = Limiter.runningCount (Limiter.this h) + 1.
Proof.
  intros Hroom Hlg Hq. rewrite schedule_returns by done. revert Hroom Hlg. clear Hq.
  unfold Limiter.schedule, Limiter.invoke, Limiter.call_logger, side_effect_only. js_unfold.
  destruct h as [[mx rt lg lr rc] lo ti iv]; simpl. intros Hroom Hlg.
  rewrite geb_false by done. destruct lg; try done. simpl. by eexists.
Qed.

(** The diagnostics the first test of [test-parallel-limiter.mjs] expects. *)
Example test_mirror_log :
  Limiter.log (Limiter.mem Scenario.test_mirror) =
    [ (3%nat, StartedPromise 1 10); (3%nat, FinalizedPromise 0 10);
      (3%nat, StartedPromise 1 10); (3%nat, FinalizedPromise 0 10) ].
Proof. vm_compute. reflexivity. Qed.

(** What [schedule] does when the provider returns a promise, for a logger
    that is a function and returns: the counter goes back by one, a
    fulfilment is returned as it is, and a rejection is thrown again as it is
    unless the error is [null] or [undefined], for which reading [e.message]
    throws. *)
Lemma schedule_settled_restores fn c h :
  callable (Limiter.logger (Limiter.this h)) = true ->
  returns_normally fn (Limiter.logger (Limiter.this h)) ->
  ∃ h', Limiter.async_result (Limiter.schedule_settled fn c h) =
          (match c with
           | Normal v => Limiter.Resolved v
           | Throw e =>
               Limiter.Rejected (if nullish e then TypeError_read e "message" else e)
           end, h') ∧
        Limiter.runningCount (Limiter.this h') = Limiter.runningCount (Limiter.this h) - 1.
Proof.
  intros Hlg Hq. rewrite schedule_settled_returns by done.
  destruct (Limiter.async_result _) as [s h'] eqn:E. exists h'.
  apply schedule_settled_effect in E as (_ & _ & _ & _ & _ & _ & E).
  destruct (E Hlg) as [-> ->]. done.
Qed.

(** C5. With a capacity of zero or less and a logger that is a function,
    nothing is ever launched.  On a limiter every call stays suspended in the
    admission loop, whose timer can always fire again; the counter stays at
    zero and no operation is invoked.  A batch with at least one job stays
    suspended before its first job in the same way; it neither resolves nor
    rejects. *)
Theorem non_positive_capacity_blocks (capacity : Z) :
  capacity ≤ 0 ->
  (∀ o w,
     Limiter.maxParallel (Limiter.constructor o) = capacity ->
     callable (Limiter.logger (Limiter.constructor o)) = true ->
     Limiter.reachable Limiter.parallelLimiter (Limiter.fresh (Limiter.constructor o)) w ->
     Limiter.runningCount (Limiter.this (Limiter.mem w)) = 0 ∧
     Limiter.invoked (Limiter.mem w) = [] ∧
     ∀ k t, Limiter.tasks w !! k = Some t ->
            Limiter.state t = Limiter.Waiting ∧
            is_Some (Limiter.step Limiter.parallelLimiter (Limiter.TimerFired k) w)) ∧
  (∀ a w,
     Batch.maxParallel a = capacity -> Batch.jobs a ≠ [] ->
     callable (Batch.logger a) = true -> Batch.reachable a w ->
     Batch.main w = Batch.AdmissionWait 0 ∧ Batch.runningCount (Batch.mem w) = 0 ∧
     Batch.invoked (Batch.mem w) = [] ∧ Batch.runs (Batch.mem w) = [] ∧
     is_Some (Batch.step a Batch.TimerFired w)).
Proof.
  intros Hcap. split.
  - intros o w Hmax Hlg Hr.
    apply blocked_reachable in Hr as (Hthis & Hinv & Hts); [|done|lia|done].
    rewrite Hthis. split_and!; [done..|]. intros k t Hk.
    pose proof (Forall_lookup_1 _ _ _ _ Hts Hk) as Hw. split; [done|].
    destruct t as [o' s]; simpl in Hw; subst s. simpl. rewrite Hk.
    destruct (Limiter.async_result _). by eexists.
  - intros a w Hmax Hjobs Hlg Hr.
    apply blocked_batch_reachable in Hr as (Hm & ? & ? & ? & ?); [|done|lia|done].
    split_and!; try done. simpl. rewrite Hm. by eexists.
Qed.

Lemma non_positive_capacity_blocks_witness :
  0 ≤ 0 ∧
  Limiter.tasks Scenario.blocked_limiter !! 0%nat =
    Some {| Limiter.op := AsyncFulfil (JNum 42); Limiter.state := Limiter.Waiting |} ∧
  Limiter.invoked (Limiter.mem Scenario.blocked_limiter) = [] ∧
  Batch.main Scenario.starved_polling = Batch.AdmissionWait 0 ∧
  Batch.invoked (Batch.mem Scenario.starved_polling) = [].
Proof.
  assert (0 ≤ 0) as H0 by lia. assert (-1 ≤ 0) as H1 by lia.
  split; [exact H0|].
  destruct (non_positive_capacity_blocks 0 H0) as [Hl _].
  destruct (non_positive_capacity_blocks (-1) H1) as [_ Hb].
  assert (Limiter.reachable Limiter.parallelLimiter
            (Limiter.fresh (Limiter.constructor Scenario.capacity0))
            Scenario.blocked_limiter) as Hr.
  { apply (run_reachable _ [Limiter.Call (AsyncFulfil (JNum 42)); Limiter.TimerFired 0;
                            Limiter.TimerFired 0]).
    vm_compute. reflexivity. }
  destruct (Hl Scenario.capacity0 _ eq_refl eq_refl Hr) as (_ & Hinv & _).
  assert (Batch.reachable Scenario.starved Scenario.starved_polling) as Hr'.
  { apply (batch_run_reachable _ [Batch.TimerFired; Batch.TimerFired]).
    vm_compute. reflexivity. }
  assert (Batch.jobs Scenario.starved ≠ []) as Hne by discriminate.
  destruct (Hb Scenario.starved _ eq_refl Hne eq_refl Hr') as (Hm & _ & Hi & _).
  split_and!; [vm_compute; reflexivity|exact Hinv|exact Hm|exact Hi].
Defined.

(** C6 as stated fails: with [logRetries] on, a batch of one job and
    capacity one emits the polling diagnostic of the drain loop,
    [Waiting for runs to complete (1), waiting for 10ms], before its first
    [await]. *)
Lemma roomy_batch_logs_drain_polling :
  ¬ (∀ a w, Z.of_nat (length (Batch.jobs a)) ≤ Batch.maxParallel a ->
            Batch.reachable a w ->
            (∀ i, Batch.main w ≠ Batch.AdmissionWait i) ∧
            Forall (λ e, polling_diag e.2 = false) (Batch.log (Batch.mem w))).
Proof.
  intros H.
  destruct (H Scenario.roomy (Batch.allSettledParallelLimited Scenario.roomy))
    as [_ Hlog]; [simpl; lia|apply rtc_refl|].
  apply Forall_cons in Hlog as [_ Hlog]. apply Forall_cons in Hlog as [Hd _].
  discriminate Hd.
Qed.

(** C6, amended.  When the capacity is at least the number of jobs, the call
    never suspends in the admission loop: in every state it reaches it is in
    the drain loop or settled, the logger has received no diagnostic of the
    admission loop, and every timer started is one of the drain loop
    ([5 * retryMs]).  With [logRetries] off no polling diagnostic at all is
    emitted. *)
Theorem roomy_batch_never_waits_for_admission (a : Batch.arguments) (w : Batch.world) :
  Z.of_nat (length (Batch.jobs a)) ≤ Batch.maxParallel a ->
  Batch.reachable a w ->
  (∀ i, Batch.main w ≠ Batch.AdmissionWait i) ∧
  Forall (λ e, admission_diag e.2 = false) (Batch.log (Batch.mem w)) ∧
  Forall (λ d, d = 5 * Batch.retryMs a) (Batch.timeouts (Batch.mem w)) ∧
  (Batch.logRetries a = false ->
   Forall (λ e, polling_diag e.2 = false) (Batch.log (Batch.mem w))).
Proof.
  intros Hroom Hr. destruct (roomy_reachable _ _ Hroom Hr) as [(? & ? & ?) ?].
  by split_and!.
Qed.

Lemma roomy_batch_never_waits_for_admission_witness :
  Forall (λ d, d = 50) (Batch.timeouts (Batch.mem Scenario.roomy_draining)) ∧
  Forall (λ e, admission_diag e.2 = false) (Batch.log (Batch.mem Scenario.roomy_draining)).
Proof.
  assert (Z.of_nat (length (Batch.jobs Scenario.roomy)) ≤ Batch.maxParallel Scenario.roomy)
    as Hroom by (simpl; lia).
  assert (Batch.reachable Scenario.roomy Scenario.roomy_draining) as Hr
    by (apply (batch_run_reachable _ [Batch.TimerFired]); vm_compute; reflexivity).
  destruct (roomy_batch_never_waits_for_admission _ _ Hroom Hr) as (_ & Hl & Ht & _).
  split; [exact Ht|exact Hl].
Defined.

(** C7. [noLimiter.schedule] invokes the operation in the call itself, once,
    and mirrors it.  A call made in any state reached from calls to it
    invokes the operation at once and touches nothing else: it is rejected
    with the error when the operation throws, and pending on the operation
    otherwise.  In every such state the limiter object is untouched, the
    logger has not been called and no timer has been started; a call is never
    suspended on a timer; a call still pending has an operation that did not
    throw, and once that operation has an outcome the call is resumed to
    exactly that outcome, the heap unchanged; a call has resolved only with
    the value its operation gave and rejected only with the error its
    operation threw or rejected with. *)
Theorem noLimiter_schedule_mirrors (l : Limiter.ParallelLimiter) (w : Limiter.world) :
  Limiter.reachable Limiter.noLimiter (Limiter.fresh l) w ->
  Limiter.this (Limiter.mem w) = l ∧
  Limiter.log (Limiter.mem w) = [] ∧
  Limiter.timeouts (Limiter.mem w) = [] ∧
  (∀ o, Limiter.step Limiter.noLimiter (Limiter.Call o) w =
          Some {| Limiter.mem := Limiter.push_invoked (length (Limiter.tasks w)) (Limiter.mem w);
                  Limiter.tasks :=
                    Limiter.tasks w ++
                    [ {| Limiter.op := o;
                         Limiter.state :=
                           match o with
                           | SyncThrow e => Limiter.Rejected e
                           | _ => Limiter.Running
                           end |} ] |}) ∧
  ∀ k t, Limiter.tasks w !! k = Some t ->
    Limiter.invocations k w = 1%nat ∧
    match Limiter.state t with
    | Limiter.Waiting => False
    | Limiter.Running =>
        (∀ e, Limiter.op t ≠ SyncThrow e) ∧
        ∀ outcome, resumption (Limiter.op t) = Some outcome ->
          Limiter.step Limiter.noLimiter (Limiter.Settled k) w =
            Some {| Limiter.mem := Limiter.mem w;
                    Limiter.tasks :=
                      <[k := {| Limiter.op := Limiter.op t;
                                Limiter.state :=
                                  match outcome with
                                  | Normal v => Limiter.Resolved v
                                  | Throw e => Limiter.Rejected e
                                  end |}]> (Limiter.tasks w) |}
    | Limiter.Resolved v => Limiter.op t = AsyncFulfil v ∨ Limiter.op t = Returns v
    | Limiter.Rejected e => Limiter.op t = SyncThrow e ∨ Limiter.op t = AsyncReject e
    end.
Proof.
  intros Hr. apply noLimiter_reachable in Hr as (? & ? & ? & Hts & _).
  split_and!; [done..| |].
  - intros o. simpl. by rewrite noLimiter_schedule_effect.
  - intros k t Hk. destruct (Hts _ _ Hk) as [? Hm].
    split; [done|]. destruct t as [o s]; simpl in *. destruct s; try done.
    split; [done|]. intros c Hc. rewrite Hk, Hc, noLimiter_settled_effect. done.
Qed.

Lemma noLimiter_schedule_mirrors_witness :
  Limiter.timeouts (Limiter.mem Scenario.unlimited) = [] ∧
  Limiter.step Limiter.noLimiter (Limiter.Settled 0) Scenario.unlimited =
    Some {| Limiter.mem := Limiter.mem Scenario.unlimited;
            Limiter.tasks := [ {| Limiter.op := AsyncFulfil (JNum 42);
                                  Limiter.state := Limiter.Resolved (JNum 42) |} ] |}.
Proof.
  assert (Limiter.reachable Limiter.noLimiter
            (Limiter.fresh (Limiter.constructor Limiter.no_options)) Scenario.unlimited) as Hr
    by (apply (run_reachable _ [Limiter.Call (AsyncFulfil (JNum 42))]); vm_compute; reflexivity).
  destruct (noLimiter_schedule_mirrors _ _ Hr) as (_ & _ & Ht & _ & Hts).
  split; [exact Ht|].
  destruct (Hts 0%nat {| Limiter.op := AsyncFulfil (JNum 42); Limiter.state := Limiter.Running |}
              eq_refl) as (_ & _ & Hstep).
  exact (Hstep (Normal (JNum 42)) eq_refl).
Defined.

(** C8. A [schedule] call invokes its operation at most once, however many
    times its admission check is repeated: in every state a limiter reaches,
    the operation of a call that is still polling has not been invoked, and
    the operation of a call that is running or has returned has been invoked
    exactly once; with a logger that is a function the same holds for a call
    that has failed. *)
Theorem schedule_invokes_once (o : Limiter.options) (w : Limiter.world)
    (k : nat) (t : Limiter.task) :
  Limiter.reachable Limiter.parallelLimiter (Limiter.fresh (Limiter.constructor o)) w ->
  Limiter.tasks w !! k = Some t ->
  (Limiter.invocations k w ≤ 1)%nat ∧
  (Limiter.state t = Limiter.Waiting -> Limiter.invocations k w = 0%nat) ∧
  (Limiter.state t = Limiter.Running -> Limiter.invocations k w = 1%nat) ∧
  (∀ v, Limiter.state t = Limiter.Resolved v -> Limiter.invocations k w = 1%nat) ∧
  (callable (Limiter.logger (Limiter.constructor o)) = true ->
   ∀ e, Limiter.state t = Limiter.Rejected e -> Limiter.invocations k w = 1%nat).
Proof.
  intros Hr Hk. apply limiter_inv_reachable in Hr as (_ & _ & _ & Hts & _); [|done].
  specialize (Hts _ _ Hk). unfold Limiter.invoked_as_state in Hts.
  destruct (Limiter.state t); split_and!; try done; try lia;
    intros; try done; by apply Hts.
Qed.

Lemma schedule_invokes_once_witness :
  Limiter.invocations 2 Scenario.busy_limiter = 0%nat ∧
  Limiter.invocations 2 Scenario.done_limiter = 1%nat.
Proof.
  assert (Limiter.reachable Limiter.parallelLimiter
            (Limiter.fresh (Limiter.constructor Scenario.capacity2)) Scenario.busy_limiter) as Hb
    by (apply (run_reachable _ (take 5 Scenario.three_calls)); vm_compute; reflexivity).
  assert (Limiter.reachable Limiter.parallelLimiter
            (Limiter.fresh (Limiter.constructor Scenario.capacity2)) Scenario.done_limiter) as Hd
    by (apply (run_reachable _ Scenario.three_calls); vm_compute; reflexivity).
  split.
  - destruct (schedule_invokes_once Scenario.capacity2 _ 2%nat
                {| Limiter.op := AsyncReject Scenario.boom; Limiter.state := Limiter.Waiting |}
                Hb eq_refl) as (_ & Hw & _).
    exact (Hw eq_refl).
  - destruct (schedule_invokes_once Scenario.capacity2 _ 2%nat
                {| Limiter.op := AsyncReject Scenario.boom;
                   Limiter.state := Limiter.Rejected Scenario.boom |}
                Hd eq_refl) as (_ & _ & _ & _ & Hrej).
    exact (Hrej eq_refl Scenario.boom eq_refl).
Defined.

(** C9. For the empty job list, whatever the capacity, the call returns the
    empty array before any [await]: the state after the call is the only
    state it reaches, resolved, with no record, no logger call and no timer
    started. *)
Theorem empty_batch_resolves_at_once (a : Batch.arguments) :
  Batch.jobs a = [] ->
  Batch.allSettledParallelLimited a = {| Batch.mem := Batch.empty_heap; Batch.main := Batch.Resolved |} ∧
  ∀ w, Batch.reachable a w ->
       Batch.main w = Batch.Resolved ∧ Batch.runs (Batch.mem w) = [] ∧
       Batch.log (Batch.mem w) = [] ∧ Batch.timeouts (Batch.mem w) = [].
Proof.
  intros Hjobs. split.
  - apply (empty_batch_reachable a); [done|apply rtc_refl].
  - intros w Hr. by rewrite (empty_batch_reachable _ _ Hjobs Hr).
Qed.

Lemma empty_batch_resolves_at_once_witness :
  Batch.allSettledParallelLimited Scenario.nothing =
    {| Batch.mem := Batch.empty_heap; Batch.main := Batch.Resolved |}.
Proof.
  assert (Batch.jobs Scenario.nothing = []) as Hjobs by reflexivity.
  exact (proj1 (empty_batch_resolves_at_once Scenario.nothing Hjobs)).
Defined.

(** C10 as stated fails: for a logger whose [debug] property is [null], a
    defined value, [??] falls back to the logger itself. *)
Lemma null_debug_falls_back_to_logger :
  Limiter.logger (Limiter.constructor (Scenario.limiter_options 1 Scenario.null_debug))
    ≠ Limiter.logger_as_specified Scenario.null_debug.
Proof. discriminate. Qed.

(** C10, amended.  The sink is [logger.debug] when the logger is not [null]
    and its [debug] property is neither [undefined] nor [null], and the
    logger itself otherwise (the default no-op function when the argument is
    [undefined]).  So with a logger whose [debug] is a function, every
    diagnostic of every [schedule] call is a call to that function. *)
Theorem constructor_selects_debug_sink (o : Limiter.options) :
  let logger := default_param (Limiter.opt_logger o) noop_logger in
  Limiter.logger (Limiter.constructor o) =
    (if nullish logger || nullish (own_prop logger "debug")
     then logger else own_prop logger "debug") ∧
  ∀ id ps w,
    nullish logger = false -> own_prop logger "debug" = JFun id ps ->
    Limiter.reachable Limiter.parallelLimiter (Limiter.fresh (Limiter.constructor o)) w ->
    Forall (λ e, e.1 = id) (Limiter.log (Limiter.mem w)).
Proof.
  intros logger.
  assert (Limiter.logger (Limiter.constructor o) =
            (if nullish logger || nullish (own_prop logger "debug")
             then logger else own_prop logger "debug")) as Hsink.
  { simpl. unfold Limiter.constructor_logger, opt_chain, nullish_coalesce. fold logger.
    destruct (nullish logger); [done|]. by destruct (nullish (own_prop logger "debug")). }
  split; [done|]. intros id ps w Hl Hd Hr.
  apply log_reachable in Hr as [_ Hlog].
  rewrite Hsink, Hl, Hd in Hlog. simpl in Hlog.
  eapply Forall_impl; [exact Hlog|]. intros e [ps' Heq]. congruence.
Qed.

Lemma constructor_selects_debug_sink_witness :
  Limiter.logger (Limiter.constructor (Scenario.limiter_options 1 Scenario.console)) = JFun 2 [] ∧
  Forall (λ e, e.1 = 2%nat) (Limiter.log (Limiter.mem Scenario.console_limiter)).
Proof.
  destruct (constructor_selects_debug_sink (Scenario.limiter_options 1 Scenario.console))
    as [Hsink Hlog].
  split; [exact Hsink|].
  apply (Hlog 2%nat [] Scenario.console_limiter eq_refl eq_refl).
  apply (run_reachable _ Scenario.three_calls).
    vm_compute. reflexivity.
Defined.


(** * Further properties of [ParallelLimiter.schedule] *)

Section LimiterMore.
Import Limiter LimiterAux.

Lemma count_tasks_snoc f ts t :
  count_tasks f (ts ++ [t]) = (count_tasks f ts + if f t then 1 else 0)%nat.
Proof.
  unfold count_tasks. rewrite filter_app, length_app, filter_cons, filter_nil.
  destruct (f t); simpl; repeat case_decide; simpl; congruence.
Qed.

Lemma count_tasks_insert f ts k t t' :
  ts !! k = Some t ->
  (count_tasks f (<[k:=t']> ts) + (if f t then 1 else 0)
   = count_tasks f ts + if f t' then 1 else 0)%nat.
Proof.
  unfold count_tasks. revert k.
  induction ts as [|a ts IH]; intros [|k]; simpl; try done.
  - intros [= ->]. rewrite !filter_cons.
    destruct (f t), (f t'); repeat case_decide; simpl; try done; lia.
  - intros H. specialize (IH _ H). rewrite !filter_cons.
    case_decide; simpl; lia.
Qed.

Lemma is_running_eq o s :
  is_running {| op := o; state := s |} = match s with Running => true | _ => false end.
Proof. done. Qed.

Lemma is_leak_eq o s :
  is_leak {| op := o; state := s |} =
    match s with
    | Rejected _ => match o with SyncThrow _ => true | _ => false end
    | _ => false
    end.
Proof. by destruct o, s. Qed.

Lemma is_waiting_eq o s :
  is_waiting {| op := o; state := s |} = match s with Waiting => true | _ => false end.
Proof. done. Qed.

Lemma in_flight_count w : in_flight w = count_tasks is_running (tasks w).
Proof. done. Qed.

(** ** The counter, exactly *)

Lemma exact_step l0 w ev w' :
  callable (logger l0) = true ->
  exact l0 w -> step parallelLimiter ev w = Some w' -> exact l0 w'.
Proof.
  intros Hlg (Hc & Hrc & Hf) Hs. destruct w as [h ts].
  unfold exact, leaked in *. rewrite in_flight_count in *. simpl in *.
  pose proof Hc as (_ & _ & Hl & _).
  destruct ev as [o|k|k]; simpl in Hs.
  - destruct (async_result _) as [s h'] eqn:E. injection Hs as <-; simpl.
    apply schedule_effect in E as [Hc' E]. rewrite Hl, Hlg in E.
    rewrite !count_tasks_snoc, is_running_eq, is_leak_eq.
    split_and!; [by eapply same_config_trans| |].
    + destruct s; try done.
      * destruct E as (_ & -> & _). destruct o; lia.
      * destruct E as (_ & -> & _ & _ & Ho). destruct o; lia.
      * destruct E as [(? & _)|(_ & -> & _ & -> & _)]; [done|]. lia.
    + apply Forall_app. split; [done|]. apply Forall_singleton.
      unfold faithful; simpl. destruct s; try done.
      * by destruct E as (_ & _ & _ & _ & Ho).
      * destruct E as [(? & _)|(_ & -> & _)]; [done|]. by left.
  - destruct (ts !! k) as [[o []]|] eqn:Hk; try done.
    destruct (async_result _) as [s h'] eqn:E. injection Hs as <-; simpl.
    apply schedule_effect in E as [Hc' E]. rewrite Hl, Hlg in E.
    pose proof (count_tasks_insert is_running ts k _ {| op := o; state := s |} Hk) as Hr.
    pose proof (count_tasks_insert is_leak ts k _ {| op := o; state := s |} Hk) as Hk'.
    rewrite !is_running_eq in Hr. rewrite !is_leak_eq in Hk'.
    split_and!; [by eapply same_config_trans| |].
    + destruct s; try done.
      * destruct E as (_ & -> & _). destruct o; lia.
      * destruct E as (_ & -> & _ & _ & Ho). destruct o; lia.
      * destruct E as [(? & _)|(_ & -> & _ & -> & _)]; [done|]. lia.
    + apply Forall_insert; [done|]. unfold faithful; simpl. destruct s; try done.
      * by destruct E as (_ & _ & _ & _ & Ho).
      * destruct E as [(? & _)|(_ & -> & _)]; [done|]. by left.
  - destruct (ts !! k) as [[o []]|] eqn:Hk; try done.
    destruct (resumption o) as [r|] eqn:Hr; [|done].
    destruct (async_result _) as [s h'] eqn:E. injection Hs as <-; simpl.
    apply schedule_settled_effect in E as (Hc' & _ & _ & _ & _ & _ & E).
    rewrite Hl in E. destruct (E Hlg) as [Hdec ->]. clear E.
    pose proof (count_tasks_insert is_running ts k _
                  {| op := o; state := match r with
                                       | Normal v => Resolved v
                                       | Throw e => Rejected (if nullish e then TypeError_read e "message" else e)
                                       end |} Hk) as Hrun.
    pose proof (count_tasks_insert is_leak ts k _
                  {| op := o; state := match r with
                                       | Normal v => Resolved v
                                       | Throw e => Rejected (if nullish e then TypeError_read e "message" else e)
                                       end |} Hk) as Hleak.
    rewrite !is_running_eq in Hrun. rewrite !is_leak_eq in Hleak.
    split_and!; [by eapply same_config_trans| |].
    + destruct o, r; simplify_eq/=; lia.
    + apply Forall_insert; [done|]. unfold faithful; simpl.
      destruct o; simplify_eq/=; [by right|by left|]. right. by eexists.
Qed.

Lemma exact_reachable l w :
  runningCount l = 0 -> callable (logger l) = true ->
  reachable parallelLimiter (fresh l) w -> exact l w.
Proof.
  intros Hrc Hlg. apply reachable_ind.
  - unfold exact, same_config; simpl. by split_and!.
  - intros ? ? ? _. by apply exact_step.
Qed.

(** ** What a segment logs and which timers it starts *)

Lemma polling_count_app l1 l2 :
  polling_count (l1 ++ l2) = (polling_count l1 + polling_count l2)%nat.
Proof. unfold polling_count. by rewrite filter_app, length_app. Qed.

Ltac trace_fin :=
  split_and!; [reflexivity|reflexivity|..]; try reflexivity; try done;
  apply Forall_singleton; simpl; split_and?; try done; lia.

Lemma schedule_trace k o h s h' :
  async_result (schedule side_effect_only k o h) = (s, h') ->
  ∃ l t, log h' = log h ++ l ∧ timeouts h' = timeouts h ++ t ∧
    Forall (λ e, match e.2 with
                 | MaxParallelReached r rt =>
                     r = runningCount (this h) ∧ maxParallel (this h) ≤ r ∧
                     rt = retryMs (this h) ∧ logRetries (this h) = true
                 | StartedPromise r m =>
                     r = runningCount (this h) + 1 ∧ r ≤ m ∧ m = maxParallel (this h)
                 | _ => False
                 end) l ∧
    Forall (λ d, d = retryMs (this h)) t ∧
    length t = (if s is Waiting then 1 else 0)%nat ∧
    polling_count l = (if logRetries (this h) then length t else 0)%nat.
Proof.
  unfold schedule, invoke, call_logger, side_effect_only, asyncTimeout, polling_count. js_unfold.
  destruct h as [[mx rt lg lr rc] lo ti iv]; simpl.
  destruct (Z.geb_spec rc mx); destruct lr, lg, o; simpl; intros [= <- <-]; simpl;
    first [ solve [exists [], []; rewrite !app_nil_r; trace_fin]
          | solve [eexists [], [_]; rewrite !app_nil_r; trace_fin]
          | solve [eexists [_], []; rewrite !app_nil_r; trace_fin]
          | solve [eexists [_], [_]; trace_fin] ].
Qed.

Lemma schedule_settled_trace c h s h' :
  async_result (schedule_settled side_effect_only c h) = (s, h') ->
  ∃ l, log h' = log h ++ l ∧
    Forall (λ e, match e.2 with
                 | FinalizedPromise r m | FailedPromise r m _ =>
                     r = runningCount (this h) - 1 ∧ m = maxParallel (this h)
                 | _ => False
                 end) l ∧
    polling_count l = 0%nat.
Proof.
  unfold schedule_settled, call_logger, side_effect_only, polling_count. js_unfold.
  destruct h as [[mx rt lg lr rc] lo ti iv]; simpl.
  destruct c as [v|e]; [|destruct (nullish e) eqn:En]; destruct lg; simpl;
    rewrite ?En; simpl; intros [= <- <-]; simpl;
    first [ solve [exists []; rewrite !app_nil_r; by split_and!]
          | solve [eexists [_]; split_and!; try done;
                   apply Forall_singleton; simpl; by split_and!] ].
Qed.

Lemma traced_enter l0 h ts k o s h' :
  limiter_inv l0 {| mem := h; tasks := ts |} ->
  traced l0 {| mem := h; tasks := ts |} ->
  async_result (schedule side_effect_only k o h) = (s, h') ->
  ∀ ts', traced l0 {| mem := h'; tasks := ts' |}.
Proof.
  intros ((Hm & Hrt & Hl & Hlr) & Hb & _) (Hlog & Hti & Hpc) E ts'.
  unfold traced, in_flight in *; simpl in *.
  apply schedule_trace in E as (l & t & -> & -> & Hl1 & Ht1 & _ & Hp1).
  rewrite Hlr in Hp1. split_and!.
  - apply Forall_app. split; [done|]. eapply Forall_impl; [exact Hl1|].
    intros [id d]; simpl. destruct d; try done; unfold diag_sound; simpl.
    + rewrite Hm, Hrt, Hlr. intros (-> & ? & ? & ?). by split_and!.
    + rewrite Hm. intros (-> & ? & ->). split; [lia|done].
  - apply Forall_app. split; [done|]. eapply Forall_impl; [exact Ht1|].
    intros d ->. done.
  - rewrite polling_count_app, length_app, Hpc, Hp1. by destruct (logRetries l0).
Qed.

Lemma traced_reachable l w :
  runningCount l = 0 ->
  reachable parallelLimiter (fresh l) w -> traced l w.
Proof.
  intros Hrc Hr. pattern w. revert w Hr. apply reachable_ind.
  - unfold traced; simpl. split_and!; try done. by destruct (logRetries l).
  - intros [h ts] ev w' Hr Htr Hs.
    apply limiter_inv_reachable in Hr; [|done].
    destruct ev as [o|k|k]; simpl in Hs.
    + destruct (async_result _) as [s h'] eqn:E. injection Hs as <-.
      by eapply traced_enter.
    + destruct (ts !! k) as [[o []]|] eqn:Hk; try done.
      destruct (async_result _) as [s h'] eqn:E. injection Hs as <-.
      by eapply traced_enter.
    + destruct (ts !! k) as [[o []]|] eqn:Hk; try done.
      destruct (resumption o) as [r|] eqn:Hset; [|done].
      destruct (async_result _) as [s h'] eqn:E. injection Hs as <-.
      destruct Hr as ((Hm & Hrt & Hl & Hlr) & Hb & _).
      destruct Htr as (Hlog & Hti & Hpc).
      pose proof (running_tasks_lookup ts k _ Hk) as Hge.
      change (weight {| op := o; state := Running |}) with 1%nat in Hge.
      unfold traced, in_flight in *; simpl in *.
      pose proof (schedule_settled_effect _ _ _ _ E) as (_ & _ & Ht' & _).
      apply schedule_settled_trace in E as (l' & -> & Hl1 & Hp1).
      rewrite Ht'. split_and!; [|done|].
      * apply Forall_app. split; [done|]. eapply Forall_impl; [exact Hl1|].
        intros [id d]; simpl. destruct d; try done; unfold diag_sound; simpl;
          rewrite Hm; intros [-> ->]; split; [lia|done|lia|done].
      * by rewrite polling_count_app, Hp1, Nat.add_0_r.
Qed.

(** ** Calls within the capacity *)

Lemma within_capacity_reachable l w :
  runningCount l = 0 ->
  reachable parallelLimiter (fresh l) w ->
  Z.of_nat (length (tasks w)) ≤ maxParallel l ->
  runningCount (this (mem w)) ≤ Z.of_nat (length (tasks w)) ∧
  Forall (λ t, state t ≠ Waiting) (tasks w) ∧ timeouts (mem w) = [].
Proof.
  intros Hrc Hr. pattern w. revert w Hr. apply reachable_ind.
  - simpl. intros _. rewrite Hrc. by split_and!.
  - intros [h ts] ev w' Hr IH Hs.
    apply limiter_inv_reachable in Hr as ((Hm & _) & _); [|done]. simpl in *.
    destruct ev as [o|k|k]; simpl in Hs.
    + destruct (async_result _) as [s h'] eqn:E. injection Hs as <-; simpl.
      rewrite length_app; simpl. intros Hlen.
      destruct IH as (Hle & Hnw & Hti); [lia|].
      pose proof (schedule_trace _ _ _ _ _ E) as (l0 & t & _ & -> & _ & _ & Ht & _).
      apply schedule_effect in E as [_ E]. rewrite Hm in E.
      assert (s ≠ Waiting) as Hs by (intros ->; lia).
      split_and!.
      * destruct s; try done; [lia|]. destruct E as [(_ & _ & [->| [_ ->]])|(_ & _ & _ & -> & _)]; lia.
      * apply Forall_app. split; [done|]. by apply Forall_singleton.
      * rewrite Hti. destruct s; try done; by destruct t.
    + destruct (ts !! k) as [[o []]|] eqn:Hk; try done.
      destruct (async_result _) as [s h'] eqn:E. injection Hs as <-; simpl.
      rewrite length_insert. intros Hlen. destruct IH as (_ & Hnw & _); [done|].
      eapply Forall_lookup_1 in Hnw; [|exact Hk]. by simpl in Hnw.
    + destruct (ts !! k) as [[o []]|] eqn:Hk; try done.
      destruct (resumption o) as [r|] eqn:Hset; [|done].
      destruct (async_result _) as [s h'] eqn:E. injection Hs as <-; simpl.
      rewrite length_insert. intros Hlen. destruct IH as (Hle & Hnw & Hti); [done|].
      apply schedule_settled_effect in E as (_ & _ & -> & Hs1 & _ & Hdec & _).
      split_and!; [lia| |done]. by apply Forall_insert.
Qed.

(** ** A logger that is not a function *)

Lemma schedule_uncallable k o h s h' :
  callable (logger (this h)) = false ->
  async_result (schedule side_effect_only k o h) = (s, h') ->
  logger (this h') = logger (this h) ∧ invoked h' = invoked h ∧ log h' = log h ∧
  (s = Waiting ∨ s = Rejected (TypeError_call "this.logger")).
Proof.
  unfold schedule, invoke, call_logger, side_effect_only, asyncTimeout. js_unfold.
  destruct h as [[mx rt lg lr rc] lo ti iv]; simpl. intros Hlg.
  destruct (Z.geb_spec rc mx); destruct lr, lg; simpl; try done;
    intros [= <- <-]; simpl; split_and!; auto.
Qed.

Lemma uncallable_reachable l w :
  callable (logger l) = false ->
  reachable parallelLimiter (fresh l) w ->
  logger (this (mem w)) = logger l ∧ invoked (mem w) = [] ∧ log (mem w) = [] ∧
  Forall (λ t, state t = Waiting ∨ state t = Rejected (TypeError_call "this.logger"))
         (tasks w).
Proof.
  intros Hlg Hr. pattern w. revert w Hr. apply reachable_ind; [done|].
  intros [h ts] ev w' _ (Hl & Hi & Hlo & Hts) Hs; simpl in *.
  destruct ev as [o|k|k]; simpl in Hs.
  - destruct (async_result _) as [s h'] eqn:E. injection Hs as <-; simpl.
    apply schedule_uncallable in E as (? & ? & ? & ?); [|congruence].
    split_and!; try congruence. apply Forall_app. split; [done|]. by apply Forall_singleton.
  - destruct (ts !! k) as [[o []]|] eqn:Hk; try done.
    destruct (async_result _) as [s h'] eqn:E. injection Hs as <-; simpl.
    apply schedule_uncallable in E as (? & ? & ? & ?); [|congruence].
    split_and!; try congruence. by apply Forall_insert.
  - destruct (ts !! k) as [[o []]|] eqn:Hk; try done.
    eapply Forall_lookup_1 in Hts; [|done]. by destruct Hts.
Qed.

(** ** Timers and polling diagnostics, whatever the logger does *)

Lemma schedule_polls fn k o h s h' :
  async_result (schedule fn k o h) = (s, h') ->
  ∃ l t, log h' = log h ++ l ∧ timeouts h' = timeouts h ++ t ∧
    Forall (λ d, d = retryMs (this h)) t ∧
    (logRetries (this h) = true -> (length t ≤ polling_count l)%nat) ∧
    (logRetries (this h) = false -> polling_count l = 0%nat) ∧
    (runningCount (this h) < maxParallel (this h) ->
     s ≠ Waiting ∧ t = [] ∧ polling_count l = 0%nat) ∧
    (s = Waiting -> length t = 1%nat).
Proof.
  unfold schedule, invoke, call_logger, asyncTimeout, polling_count. js_unfold.
  destruct h as [[mx rt lg lr rc] lo ti iv]; simpl.
  destruct (Z.geb_spec rc mx); destruct lr, lg, o; simpl;
    repeat match goal with |- context [fn ?i ?l ?d] => destruct (fn i l d) end; simpl;
    intros [= <- <-]; simpl;
    first [ solve [exists [], []; rewrite !app_nil_r; split_and!; simpl; try done; try lia;
                   intros; split_and!; try done; lia]
          | solve [eexists [], [_]; rewrite !app_nil_r; split_and!; simpl; try done; try lia;
                   try (by apply Forall_singleton); intros; split_and!; try done; lia]
          | solve [eexists [_], []; rewrite !app_nil_r; split_and!; simpl; try done; try lia;
                   intros; split_and!; try done; lia]
          | solve [eexists [_], [_]; split_and!; simpl; try done; try lia;
                   try (by apply Forall_singleton); intros; split_and!; try done; lia] ].
Qed.

Lemma schedule_settled_polls fn c h s h' :
  async_result (schedule_settled fn c h) = (s, h') ->
  s ≠ Waiting ∧ timeouts h' = timeouts h ∧
  ∃ l, log h' = log h ++ l ∧ polling_count l = 0%nat.
Proof.
  unfold schedule_settled, call_logger, polling_count. js_unfold.
  destruct h as [[mx rt lg lr rc] lo ti iv]; simpl.
  destruct c as [v|e]; [|destruct (nullish e) eqn:En]; destruct lg; simpl;
    repeat match goal with |- context [fn ?i ?l ?d] => destruct (fn i l d) end; simpl;
    repeat match goal with |- context [nullish ?e] => destruct (nullish e) end; simpl;
    repeat match goal with |- context [fn ?i ?l ?d] => destruct (fn i l d) end; simpl;
    intros [= <- <-]; simpl; split_and!; try done;
    first [ solve [exists []; by rewrite !app_nil_r]
          | solve [eexists [_]; by split]
          | solve [eexists [_; _]; split; [by rewrite <- app_assoc|done]] ].
Qed.

Lemma polls_reachable fn l w :
  runningCount l = 0 ->
  reachable (limiter_with fn) (fresh l) w ->
  Forall (λ d, d = retryMs l) (timeouts (mem w)) ∧
  (logRetries l = true -> (length (timeouts (mem w)) ≤ polling_count (log (mem w)))%nat) ∧
  (logRetries l = false -> polling_count (log (mem w)) = 0%nat).
Proof.
  intros Hrc Hr. pattern w. revert w Hr. apply reachable_ind.
  - simpl. split_and!; try done; unfold polling_count; simpl; lia.
  - intros [h ts] ev w' Hr (Hti & Hle & Hoff) Hs.
    apply config_reachable in Hr as [(Hm & Hrt & Hl & Hlr) _]; [|done]. simpl in *.
    assert (∀ k o s h', async_result (schedule fn k o h) = (s, h') ->
              Forall (λ d, d = retryMs l) (timeouts h') ∧
              (logRetries l = true ->
               (length (timeouts h') ≤ polling_count (log h'))%nat) ∧
              (logRetries l = false -> polling_count (log h') = 0%nat)) as Hgo.
    { intros k o s h' E.
      apply schedule_polls in E as (l0 & t & -> & -> & Ht & Hlen & Hno & _).
      rewrite Hrt in Ht. rewrite Hlr in Hno, Hlen.
      rewrite polling_count_app, length_app. split_and!.
      - apply Forall_app. by split.
      - intros Hon. specialize (Hle Hon). specialize (Hlen Hon). lia.
      - intros Hf. rewrite Hoff, Hno by done. done. }
    destruct ev as [o|k|k]; simpl in Hs.
    + destruct (async_result _) as [s h'] eqn:E. injection Hs as <-; simpl. by eapply Hgo.
    + destruct (ts !! k) as [[o []]|] eqn:Hk; try done.
      destruct (async_result _) as [s h'] eqn:E. injection Hs as <-; simpl. by eapply Hgo.
    + destruct (ts !! k) as [[o []]|] eqn:Hk; try done.
      destruct (resumption o) as [r|]; [|done].
      destruct (async_result _) as [s h'] eqn:E. injection Hs as <-; simpl.
      apply schedule_settled_polls in E as (_ & -> & l0 & -> & Hp).
      rewrite polling_count_app, Hp, Nat.add_0_r. by split_and!.
Qed.

Lemma within_capacity_any fn l w :
  runningCount l = 0 ->
  reachable (limiter_with fn) (fresh l) w ->
  Z.of_nat (length (tasks w)) ≤ maxParallel l ->
  runningCount (this (mem w)) ≤ Z.of_nat (length (tasks w)) ∧
  Forall (λ t, state t ≠ Waiting) (tasks w) ∧ timeouts (mem w) = [] ∧
  polling_count (log (mem w)) = 0%nat.
Proof.
  intros Hrc Hr. pattern w. revert w Hr. apply reachable_ind.
  - simpl. intros _. rewrite Hrc. by split_and!.
  - intros [h ts] ev w' Hr IH Hs.
    apply config_reachable in Hr as [(Hm & _) _]; [|done]. simpl in *.
    destruct ev as [o|k|k]; simpl in Hs.
    + destruct (async_result _) as [s h'] eqn:E. injection Hs as <-; simpl.
      rewrite length_app; simpl. intros Hlen.
      destruct IH as (Hle & Hnw & Hti & Hpc); [lia|].
      pose proof (schedule_polls _ _ _ _ _ _ E) as (l0 & t & -> & -> & _ & _ & _ & Hroom & _).
      destruct Hroom as (Hs & -> & Hp0); [rewrite Hm; lia|].
      apply schedule_any in E as [_ E].
      split_and!.
      * lia.
      * apply Forall_app. split; [done|]. by apply Forall_singleton.
      * by rewrite Hti.
      * by rewrite polling_count_app, Hpc, Hp0.
    + destruct (ts !! k) as [[o []]|] eqn:Hk; try done.
      destruct (async_result _) as [s h'] eqn:E. injection Hs as <-; simpl.
      rewrite length_insert. intros Hlen. destruct IH as (_ & Hnw & _); [done|].
      eapply Forall_lookup_1 in Hnw; [|exact Hk]. by simpl in Hnw.
    + destruct (ts !! k) as [[o []]|] eqn:Hk; try done.
      destruct (resumption o) as [r|] eqn:Hset; [|done].
      destruct (async_result _) as [s h'] eqn:E. injection Hs as <-; simpl.
      rewrite length_insert. intros Hlen. destruct IH as (Hle & Hnw & Hti & Hpc); [done|].
      pose proof (schedule_settled_polls _ _ _ _ _ E) as (Hs1 & -> & l0 & -> & Hp0).
      apply schedule_settled_any in E as [_ E].
      split_and!; [lia| |done|by rewrite polling_count_app, Hpc, Hp0].
      by apply Forall_insert.
Qed.

Lemma not_callable_returns fn lg : callable lg = false -> returns_normally fn lg.
Proof. by destruct lg. Qed.

(** ** A burst of calls *)

Lemma schedule_admits k o h :
  runningCount (this h) < maxParallel (this h) ->
  callable (logger (this h)) = true -> (∀ e, o ≠ SyncThrow e) ->
  ∃ h', async_result (schedule side_effect_only k o h) = (Running, h') ∧
        same_config (this h) (this h') ∧
        runningCount (this h') = runningCount (this h) + 1 ∧
        timeouts h' = timeouts h ∧ invoked h' = invoked h ++ [k].
Proof.
  intros Hroom Hlg Ho. destruct (async_result _) as [s h'] eqn:E. exists h'.
  pose proof (schedule_trace _ _ _ _ _ E) as (l0 & t & _ & Ht & _ & _ & Hlen & _).
  apply schedule_effect in E as [Hc E]. rewrite Hlg in E.
  destruct s; try done.
  - lia.
  - destruct E as (_ & ? & ? & _). destruct t; [|done].
    rewrite app_nil_r in Ht. by split_and!.
  - destruct E as [[? _]|(_ & -> & _)]; [done|]. by destruct (Ho e).
Qed.

Lemma run_app c evs1 evs2 w :
  run c (evs1 ++ evs2) w = run c evs1 w ≫= run c evs2.
Proof.
  revert w. induction evs1 as [|ev evs1 IH]; intros w; simpl; [done|].
  destruct (step c ev w); [apply IH|done].
Qed.

Lemma count_tasks_zero f ts :
  Forall (λ t, f t = false) ts -> count_tasks f ts = 0%nat.
Proof.
  unfold count_tasks. induction 1 as [|t ts Ht _ IH]; [done|].
  rewrite filter_cons. case_decide; [congruence|done].
Qed.

Lemma burst_run l ops :
  runningCount l = 0 -> callable (logger l) = true ->
  Forall (λ o, ∀ e, o ≠ SyncThrow e) ops ->
  ∃ w, run parallelLimiter (burst ops) (fresh l) = Some w ∧
       same_config l (this (mem w)) ∧
       runningCount (this (mem w)) =
         Z.min (Z.of_nat (length ops)) (Z.max 0 (maxParallel l)) ∧
       length (tasks w) = length ops ∧
       (∀ i o, ops !! i = Some o ->
               tasks w !! i =
                 Some {| op := o;
                         state := if bool_decide (Z.of_nat i < maxParallel l)
                                  then Running else Waiting |}) ∧
       length (timeouts (mem w)) = (length ops - Z.to_nat (maxParallel l))%nat.
Proof.
  intros Hrc Hlg. induction ops as [|o ops IH] using rev_ind; intros Hops.
  - exists (fresh l). simpl. rewrite Hrc. unfold same_config.
    split_and!; try done. lia.
  - apply Forall_app in Hops as [Hops Ho]. rewrite Forall_singleton in Ho.
    destruct (IH Hops) as ([h ts] & Hrun & Hc & Hcount & Hlen & Hts & Hti).
    simpl in *. unfold burst in *. rewrite fmap_app, run_app, Hrun. simpl.
    pose proof Hc as (Hm & Hrt & Hl & _).
    destruct (decide (Z.of_nat (length ops) < maxParallel l)) as [Hroom|Hfull].
    + destruct (schedule_admits (length ts) o h) as (h' & -> & Hc' & Hrc' & Hti' & _);
        [rewrite Hm; lia|by rewrite Hl|exact Ho|].
      eexists. split; [done|]. simpl. rewrite !length_app, Hti'; simpl.
      split_and!; [by eapply same_config_trans|lia|lia| |lia].
      intros i o' [Hi|[Hle [Hz <-]%list_lookup_singleton_Some]]%lookup_app_Some.
      * rewrite lookup_app_l by (apply lookup_lt_Some in Hi; lia). by apply Hts.
      * rewrite lookup_app_r by lia. replace (i - length ts)%nat with 0%nat by lia.
        simpl. rewrite bool_decide_true by lia. done.
    + destruct (schedule_blocked (length ts) o h) as (h' & -> & Hthis & _ & Hti');
        [rewrite Hm; lia|by rewrite Hl|].
      eexists. split; [done|]. simpl. rewrite !length_app, Hthis, Hti', length_app; simpl.
      split_and!; [done|lia|lia| |lia].
      intros i o' [Hi|[Hle [Hz <-]%list_lookup_singleton_Some]]%lookup_app_Some.
      * rewrite lookup_app_l by (apply lookup_lt_Some in Hi; lia). by apply Hts.
      * rewrite lookup_app_r by lia. replace (i - length ts)%nat with 0%nat by lia.
        simpl. rewrite bool_decide_false by lia. done.
Qed.

(** ** The eager loop completes every call *)

Lemma find_none_count f ts :
  list_find (λ t, f t = true) ts = None -> count_tasks f ts = 0%nat.
Proof.
  intros H%list_find_None. apply count_tasks_zero.
  eapply Forall_impl; [exact H|]. intros t Ht. simpl in Ht. by destruct (f t).
Qed.

Lemma settling_no_leak ts :
  Forall (λ t, is_Some (resumption (op t))) ts -> count_tasks is_leak ts = 0%nat.
Proof.
  intros H. apply count_tasks_zero. eapply Forall_impl; [exact H|].
  intros [o s] [c Hc]; simpl in *. rewrite is_leak_eq. destruct s; try done.
  by destruct o.
Qed.

Lemma settling_no_running ts :
  Forall (λ t, is_Some (resumption (op t))) ts ->
  list_find (λ t, can_settle t = true) ts = None ->
  count_tasks is_running ts = 0%nat.
Proof.
  intros H Hnone%list_find_None. apply count_tasks_zero.
  apply Forall_forall. intros t Ht.
  pose proof (proj1 (Forall_forall _ _) H t Ht) as [c Hc].
  pose proof (proj1 (Forall_forall _ _) Hnone t Ht) as Hn. simpl in Hn.
  unfold can_settle in Hn. rewrite Hc in Hn. destruct (is_running t); [|done].
  by destruct Hn.
Qed.

Lemma fmap_op_insert (ts : list task) k t s :
  ts !! k = Some t ->
  op <$> <[k := {| op := op t; state := s |}]> ts = op <$> ts.
Proof.
  intros Hk. rewrite list_fmap_insert. simpl. apply list_insert_id.
  by rewrite list_lookup_fmap, Hk.
Qed.

Lemma drive_spec l0 n w :
  callable (logger l0) = true -> 1 ≤ maxParallel l0 ->
  exact l0 w -> Forall (λ t, is_Some (resumption (op t))) (tasks w) ->
  (rank w ≤ n)%nat ->
  exact l0 (drive parallelLimiter n w) ∧ rank (drive parallelLimiter n w) = 0%nat ∧
  op <$> tasks (drive parallelLimiter n w) = op <$> tasks w ∧
  reachable parallelLimiter w (drive parallelLimiter n w).
Proof.
  intros Hlg Hcap. revert w. induction n as [|n IH]; intros w Hex Hset Hrank.
  - simpl. split_and!; [done|lia|done|apply rtc_refl].
  - simpl. unfold next_event.
    destruct (list_find (λ t, can_settle t = true) (tasks w)) as [[k t]|] eqn:Hfind.
    + apply list_find_Some in Hfind as (Hk & Hcan & _).
      destruct w as [h ts]; simpl in *. destruct t as [o s].
      unfold can_settle in Hcan; simpl in Hcan. rewrite is_running_eq in Hcan.
      destruct s; try done. destruct (resumption o) as [c|] eqn:Hc; [|done].
      simpl. rewrite Hk, Hc.
      destruct (async_result (schedule_settled side_effect_only c h)) as [s h'] eqn:E.
      assert (step parallelLimiter (Settled k) {| mem := h; tasks := ts |} =
              Some {| mem := h'; tasks := <[k := {| op := o; state := s |}]> ts |}) as Hstep
        by (simpl; by rewrite Hk, Hc, E).
      destruct (IH {| mem := h'; tasks := <[k := {| op := o; state := s |}]> ts |})
        as (? & ? & Hops & Hreach).
      * by eapply exact_step.
      * simpl. by apply Forall_insert; [|exists c].
      * apply schedule_settled_effect in E as (_ & _ & _ & Hs1 & Hs2 & _).
        pose proof (count_tasks_insert is_running ts k _ {| op := o; state := s |} Hk) as Hr.
        pose proof (count_tasks_insert is_waiting ts k _ {| op := o; state := s |} Hk) as Hw.
        rewrite !is_running_eq in Hr. rewrite !is_waiting_eq in Hw.
        unfold rank, waiting, in_flight, running_tasks, count_tasks in *. simpl in *.
        destruct s; try done; lia.
      * split_and!; [done|done| |].
        -- rewrite Hops. simpl. by apply (fmap_op_insert ts k {| op := o; state := Running |}).
        -- eapply rtc_l; [by eexists|done].
    + destruct (list_find (λ t, is_waiting t = true) (tasks w)) as [[k t]|] eqn:Hfind'.
      * apply list_find_Some in Hfind' as (Hk & Hwait & _).
        destruct w as [h ts]; simpl in *. destruct t as [o s].
        rewrite is_waiting_eq in Hwait. destruct s; try done.
        pose proof (settling_no_running _ Hset Hfind) as Hnorun.
        pose proof (settling_no_leak _ Hset) as Hnoleak.
        pose proof Hex as (Hc & Hrc & Hf). unfold leaked in Hrc.
        rewrite in_flight_count in Hrc. simpl in Hrc. rewrite Hnorun, Hnoleak in Hrc.
        pose proof Hc as (Hm & _ & Hl & _). simpl in Hm, Hl.
        assert (∀ e, o ≠ SyncThrow e) as Ho.
        { intros e ->. eapply Forall_lookup_1 in Hset; [|exact Hk].
          simpl in Hset. by destruct Hset. }
        destruct (schedule_admits k o h) as (h' & E & _);
          [rewrite Hm; lia|by rewrite Hl|done|].
        assert (step parallelLimiter (TimerFired k) {| mem := h; tasks := ts |} =
                Some {| mem := h'; tasks := <[k := {| op := o; state := Running |}]> ts |})
          as Hstep by (simpl; by rewrite Hk, E).
        rewrite Hk, E.
        destruct (IH {| mem := h'; tasks := <[k := {| op := o; state := Running |}]> ts |})
          as (? & ? & Hops & Hreach).
        -- eapply exact_step; [done|exact Hex|exact Hstep].
        -- simpl. apply Forall_insert; [done|].
           by eapply Forall_lookup_1 in Hset; [|exact Hk].
        -- pose proof (count_tasks_insert is_running ts k _
                         {| op := o; state := Running |} Hk) as Hr.
           pose proof (count_tasks_insert is_waiting ts k _
                         {| op := o; state := Running |} Hk) as Hw.
           rewrite !is_running_eq in Hr. rewrite !is_waiting_eq in Hw.
           unfold rank, waiting, in_flight, running_tasks, count_tasks in *. simpl in *.
           lia.
        -- split_and!; [done|done| |].
           ++ rewrite Hops. simpl.
              by apply (fmap_op_insert ts k {| op := o; state := Waiting |}).
           ++ eapply rtc_l; [by eexists|done].
      * split_and!; [done| |done|apply rtc_refl].
        unfold rank, waiting. rewrite in_flight_count.
        rewrite (find_none_count _ _ Hfind'), (settling_no_running _ Hset Hfind). done.
Qed.

Lemma drive_returns fn l n w :
  returns_normally fn (logger l) -> reachable parallelLimiter (fresh l) w ->
  drive (limiter_with fn) n w = drive parallelLimiter n w.
Proof.
  intros Hq. revert w. induction n as [|n IH]; intros w Hr; simpl; [done|].
  destruct (next_event w) as [ev|]; [|done].
  rewrite step_returns by (apply log_reachable in Hr as [(_ & _ & -> & _) _]; done).
  destruct (step parallelLimiter ev w) as [w'|] eqn:Hs; [|done].
  apply IH. eapply rtc_r; [exact Hr|by exists ev].
Qed.

Lemma count_tasks_zero_inv f ts :
  count_tasks f ts = 0%nat -> Forall (λ t, f t = false) ts.
Proof.
  unfold count_tasks. induction ts as [|t ts IH]; [done|].
  rewrite filter_cons. case_decide as Ht; simpl; [done|].
  intros H. constructor; [by destruct (f t)|by apply IH].
Qed.

Lemma completed_tasks ts :
  Forall faithful ts -> Forall (λ t, is_Some (resumption (op t))) ts ->
  count_tasks is_waiting ts = 0%nat -> count_tasks is_running ts = 0%nat ->
  ts = (λ t, {| op := op t; state := outcome_of (op t) |}) <$> ts.
Proof.
  intros Hf Hs Hw%count_tasks_zero_inv Hr%count_tasks_zero_inv.
  induction ts as [|[o s] ts IH]; [done|].
  apply Forall_cons in Hf as [Hf1 Hf], Hs as [[c Hc] Hs], Hw as [Hw1 Hw], Hr as [Hr1 Hr].
  rewrite fmap_cons, <- IH by done. f_equal. simpl in *.
  rewrite is_waiting_eq in Hw1. rewrite is_running_eq in Hr1.
  unfold faithful in Hf1; simpl in Hf1. destruct s; try done; simpl.
  - by destruct Hf1 as [->| ->].
  - by destruct Hf1 as [->|(e' & -> & ->)].
Qed.

Lemma same_ops_same_outcomes (ts ts' : list task) :
  op <$> ts' = op <$> ts ->
  (λ t, {| op := op t; state := outcome_of (op t) |}) <$> ts' =
  (λ t, {| op := op t; state := outcome_of (op t) |}) <$> ts.
Proof.
  intros H.
  change (λ t, {| op := op t; state := outcome_of (op t) |})
    with ((λ o, {| op := o; state := outcome_of o |}) ∘ op).
  by rewrite !list_fmap_compose, H.
Qed.

Lemma same_ops_settle (ts ts' : list task) :
  op <$> ts' = op <$> ts ->
  Forall (λ t, is_Some (resumption (op t))) ts ->
  Forall (λ t, is_Some (resumption (op t))) ts'.
Proof.
  intros H Hs. apply Forall_forall. intros t Ht.
  assert (op t ∈ op <$> ts) as Hin by (rewrite <- H; by apply list_elem_of_fmap_2).
  apply list_elem_of_fmap in Hin as (t0 & -> & Ht0).
  exact (proj1 (Forall_forall _ _) Hs t0 Ht0).
Qed.

(** ** Within the capacity, [ParallelLimiter] mirrors [noLimiter] *)

Lemma alongside_step l w w' ev :
  callable (logger l) = true ->
  alongside l w w' ->
  (Z.of_nat (length (tasks w) + calls [ev]) ≤ maxParallel l) ->
  agree (λ w1 w1', alongside l w1 w1' ∧
                   length (tasks w1) = (length (tasks w) + calls [ev])%nat)
        (step parallelLimiter ev w) (step noLimiter ev w').
Proof.
  intros Hlg (Hc & Hle & Hts & Hinv & Hnw) Hroom.
  destruct w as [h ts], w' as [h' ts']; simpl in *.
  pose proof Hc as (Hm & _ & Hl & _).
  assert (length ts = length ts') as Hlen by (by rewrite Hts, length_fmap).
  destruct ev as [o|k|k]; simpl in *.
  - rewrite noLimiter_schedule_effect.
    destruct (async_result (schedule _ _ _ _)) as [s h1] eqn:E. simpl.
    apply schedule_effect in E as [Hc' E]. rewrite Hl, Hlg, Hm in E.
    assert (s = match o with SyncThrow e => Rejected e | _ => Running end ∧
            runningCount (this h1) = runningCount (this h) + 1 ∧
            invoked h1 = invoked h ++ [length ts]) as (-> & Hrc & Hi).
    { destruct s; try done.
      - lia.
      - destruct E as (_ & ? & ? & _ & Ho). split_and!; [|done..].
        destruct o; try done. by destruct (Ho e).
      - destruct E as [[? _]|(_ & -> & _ & ? & ?)]; [done|]. by split_and!. }
    unfold alongside; simpl. rewrite !length_app, fmap_app; simpl.
    split_and!; [by eapply same_config_trans|lia| |congruence| |lia].
    + rewrite Hts. f_equal. unfold as_scheduled; simpl. by destruct o.
    + apply Forall_app. split; [done|]. apply Forall_singleton. simpl. by destruct o.
  - rewrite Hts, list_lookup_fmap.
    destruct (ts' !! k) as [[o s]|] eqn:Hk; simpl; [|done].
    eapply Forall_lookup_1 in Hnw; [|exact Hk]. simpl in Hnw.
    destruct s; try done; by destruct o.
  - rewrite Hts, list_lookup_fmap.
    destruct (ts' !! k) as [[o s]|] eqn:Hk; simpl; [|done].
    destruct s; try done; try (by destruct o).
    destruct (resumption o) as [c|] eqn:Hc0; [|done].
    rewrite noLimiter_settled_effect.
    destruct (async_result (schedule_settled side_effect_only c h)) as [s h1] eqn:E. simpl.
    apply schedule_settled_effect in E as (Hc' & Hi & _ & _ & _ & Hdec & E).
    rewrite Hl in E. destruct (E Hlg) as [_ ->].
    unfold alongside; simpl. rewrite !length_insert, !length_fmap.
    split_and!; [by eapply same_config_trans|lia| |congruence| |lia].
    + rewrite list_fmap_insert. f_equal. unfold as_scheduled; simpl.
      destruct o; simplify_eq/=; done.
    + apply Forall_insert; [done|]. by destruct c.
Qed.

Lemma alongside_run l evs w w' :
  callable (logger l) = true ->
  alongside l w w' ->
  (Z.of_nat (length (tasks w) + calls evs) ≤ maxParallel l) ->
  agree (alongside l) (run parallelLimiter evs w) (run noLimiter evs w').
Proof.
  intros Hlg. revert w w'. induction evs as [|ev evs IH]; intros w w' Hsim Hroom.
  - done.
  - simpl.
    assert ((calls (ev :: evs) = calls [ev] + calls evs)%nat) as Hcalls
      by (by destruct ev).
    assert (Z.of_nat (length (tasks w) + calls [ev]) ≤ maxParallel l) as Hpre by lia.
    pose proof (alongside_step l w w' ev Hlg Hsim Hpre) as Hstep.
    destruct (step parallelLimiter ev w) as [w1|], (step noLimiter ev w') as [w1'|];
      try done.
    destruct Hstep as [Hsim' Hlen]. apply IH; [done|]. lia.
Qed.

End LimiterMore.

(** * Further properties of [allSettledParallelLimited] *)

Section BatchMore.
Import Batch BatchAux.

(** ** What the main loop leaves alone *)

Lemma drain_frame a h :
  let w := async_result (drain a h) in
  runs (mem w) = runs h ∧ invoked (mem w) = invoked h ∧ pending (mem w) = pending h ∧
  runningCount (mem w) = runningCount h.
Proof.
  cbv zeta. rewrite drain_unfold. destruct (Z.geb_spec (runningCount h) 1); [|done].
  destruct (suspended _ _ _ _) as [[[]|e] h'] eqn:E;
    apply suspended_effect in E as (? & ? & ? & ? & _); by split_and!.
Qed.

Lemma for_loop_runs a i rest h :
  runs (mem (async_result (for_loop a i rest h))) = runs h.
Proof.
  revert i h. induction rest as [|job rest IH]; intros i h.
  - apply drain_frame.
  - rewrite for_loop_cons. destruct (Z.geb_spec (runningCount h) (maxParallel a)).
    + destruct (suspended _ _ _ _) as [[[]|e] h'] eqn:E;
        by apply suspended_effect in E as (? & ? & _).
    + destruct (logger a); try done.
      destruct (dispatch_throws (jobToPromise a job)); [done|by rewrite IH].
Qed.

Lemma step_runs_prefix a w ev w' :
  step a ev w = Some w' -> runs (mem w) `prefix_of` runs (mem w').
Proof.
  destruct w as [h m]. destruct ev as [|j]; simpl.
  - destruct m; intros [= <-]; [by rewrite for_loop_runs|].
    by destruct (drain_frame a h) as [-> _].
  - destruct (take_out j (pending h)); [|done]. destruct (jobs a !! j); [|done].
    destruct (settlement _) as [[]|]; intros [= <-]; simpl; by apply prefix_app_r.
Qed.

Lemma batch_run_steps a evs w w' :
  run a evs w = Some w' -> rtc (λ x y, ∃ ev, step a ev x = Some y) w w'.
Proof.
  revert w. induction evs as [|ev evs IH]; simpl; intros w.
  - intros [= ->]. apply rtc_refl.
  - destruct (step a ev w) as [w1|] eqn:E; [|done].
    intros H. eapply rtc_l; [by exists ev | by apply IH].
Qed.

(** ** Jobs are started in input order *)

Lemma for_loop_started a i rest h :
  invoked h = seq 0 i -> length (jobs a) = (i + length rest)%nat ->
  started a (async_result (for_loop a i rest h)).
Proof.
  revert i h. induction rest as [|job rest IH]; intros i h Hi Hlen; simpl in Hlen.
  - change (for_loop a i [] h) with (drain a h).
    destruct (drain_frame a h) as (_ & Hinv & _). exists i.
    rewrite Hinv. split_and!; [done|lia|].
    rewrite drain_unfold. destruct (Z.geb_spec (runningCount h) 1); [|simpl; lia].
    destruct (suspended _ _ _ _) as [[[]|e] h']; simpl; [lia|done].
  - rewrite for_loop_cons. destruct (Z.geb_spec (runningCount h) (maxParallel a)).
    + destruct (suspended _ _ _ _) as [[[]|e] h'] eqn:E;
        apply suspended_effect in E as (_ & _ & Hinv & _);
        exists i; simpl; rewrite Hinv; split_and!; [done|lia|done|done|lia|done].
    + destruct (logger a); try (exists i; simpl; split_and!; [done|lia|done]).
      assert (invoked (launched a id i h) = seq 0 (S i)) as Hi'
        by (rewrite seq_S; simpl; by rewrite Hi).
      destruct (dispatch_throws (jobToPromise a job)); [|apply IH; [done|lia]].
      exists (S i). rewrite seq_S. simpl. rewrite Hi. split_and!; [done|lia|done].
Qed.

Lemma started_reachable a w : reachable a w -> started a w.
Proof.
  intros Hr. pattern w. revert w Hr. apply batch_reachable_ind.
  - by apply for_loop_started.
  - intros [h m] ev w' _ (k & Hk & Hle & Hm) Hs. simpl in *.
    destruct ev as [|j]; simpl in Hs.
    + destruct m; try done; injection Hs as <-.
      * subst k. apply for_loop_started; [done|]. rewrite length_drop. lia.
      * subst k. apply (for_loop_started a (length (jobs a)) []); [done|simpl; lia].
    + destruct (take_out j (pending h)); [|done]. destruct (jobs a !! j); [|done].
      destruct (settlement _) as [[]|]; [..|done]; injection Hs as <-;
        exists k; by split_and!.
Qed.

(** ** A capacity of one keeps the input order *)

Lemma serial_inv_ext a i h h' :
  runningCount h' = runningCount h -> runs h' = runs h -> pending h' = pending h ->
  serial_inv a i h -> serial_inv a i h'.
Proof. unfold serial_inv. by intros -> -> ->. Qed.

Lemma drain_main a h i : main (async_result (drain a h)) ≠ AdmissionWait i.
Proof.
  rewrite drain_unfold. destruct (Z.geb_spec (runningCount h) 1); [|done].
  by destruct (suspended _ _ _ _) as [[[]|e] h'].
Qed.

Lemma drain_serial a h :
  serial_inv a (length (jobs a)) h -> serial a (async_result (drain a h)).
Proof.
  intros H. destruct (drain_frame a h) as (Hr & _ & Hp & Hc).
  unfold serial. destruct (main (async_result (drain a h))) eqn:Hm; try done;
    [by apply drain_main in Hm|by apply (serial_inv_ext _ _ h)..].
Qed.

Lemma for_loop_serial a i rest h :
  maxParallel a = 1 -> serial_inv a i h ->
  length (jobs a) = (i + length rest)%nat ->
  serial a (async_result (for_loop a i rest h)).
Proof.
  intros Hcap. revert i h.
  induction rest as [|job rest IH]; intros i h H Hlen; simpl in Hlen.
  - apply drain_serial. by replace (length (jobs a)) with i by lia.
  - rewrite for_loop_cons, Hcap. destruct (Z.geb_spec (runningCount h) 1) as [Hfull|Hroom].
    + destruct (suspended _ _ _ _) as [[[]|e] h'] eqn:E; [|done].
      apply suspended_effect in E as (? & ? & _ & ? & _).
      unfold serial; simpl. split; [lia|]. by apply (serial_inv_ext _ _ h).
    + destruct (logger a); try done.
      assert (serial_inv a (S i) (launched a id i h)) as H'.
      { destruct H as (_ & Hrc & [[Hp Hruns]|(i' & _ & Hp & _)]).
        - unfold serial_inv; simpl. rewrite Hp in *. simpl in *.
          split_and!; [lia|lia|]. right. by exists i.
        - rewrite Hp in Hrc. simpl in Hrc. lia. }
      destruct (dispatch_throws (jobToPromise a job)); [done|apply IH; [done|lia]].
Qed.

Lemma serial_step a w ev w' :
  maxParallel a = 1 -> serial a w -> step a ev w = Some w' -> serial a w'.
Proof.
  intros Hcap. destruct w as [h m]. destruct ev as [|j]; simpl.
  - destruct m; unfold serial; simpl; intros H [= <-].
    + destruct H. apply for_loop_serial; [done..|]. rewrite length_drop. lia.
    + by apply drain_serial.
  - destruct (take_out j (pending h)) as [p|] eqn:Hp; [|done].
    destruct (jobs a !! j) as [job|] eqn:Hj; [|done].
    destruct (settlement (jobToPromise a job)) as [c|] eqn:Hc; [|done].
    assert (∃ r, settled_record a job = Some r ∧
                 match c with
                 | Normal v => on_fulfilled v (set_pending p h)
                 | Throw e => on_rejected job e (set_pending p h)
                 end = push_run r (set_runningCount Z.pred (set_pending p h)))
      as (r & Hr & Heq).
    { unfold settled_record. destruct (jobToPromise a job); simplify_eq/=; eauto. }
    intros H Hs.
    assert (w' = {| mem := push_run r (set_runningCount Z.pred (set_pending p h));
                    main := m |}) as -> by (destruct c; congruence).
    assert (∀ i, serial_inv a i h ->
                 serial_inv a i (push_run r (set_runningCount Z.pred (set_pending p h))))
      as Hgo.
    { intros i (Hi & Hrc & [[Hnil _]|(i' & -> & Hone & Hruns)]).
      - by rewrite Hnil in Hp.
      - rewrite Hone in Hp, Hrc. simpl in Hp, Hrc.
        case_decide; [|done]. simplify_eq/=.
        unfold serial_inv; simpl. split_and!; [done|lia|]. left. split; [done|].
        rewrite (take_S_r _ _ _ Hj). apply Forall2_app; [done|]. by repeat constructor. }
    unfold serial in *; simpl in *. destruct m; try done; [|by apply Hgo..].
    destruct H. split; [done|]. by apply Hgo.
Qed.

Lemma serial_reachable a w :
  maxParallel a = 1 -> reachable a w -> serial a w.
Proof.
  intros Hcap Hr. pattern w. revert w Hr. apply batch_reachable_ind.
  - apply for_loop_serial; [done| |done]. unfold serial_inv; simpl.
    split_and!; [lia|done|]. left. split; [done|]. rewrite take_0. constructor.
  - intros ? ? ? _. by apply serial_step.
Qed.

End BatchMore.

(** * The test helper [mockHttpGetResponses] *)

Section HelperFacts.
Import Helpers.

Lemma uri_inj i j : uri i = uri j -> i = j.
Proof. unfold uri. intros H%(inj (String.append _)). by apply (inj pretty). Qed.

Lemma mock_S n :
  mockHttpGetResponses (S n) = register (mockHttpGetResponses n) n.
Proof. unfold mockHttpGetResponses. by rewrite seq_S, foldl_app. Qed.

Lemma mock_inv n :
  uris (mockHttpGetResponses n) = uri <$> seq 0 n ∧
  (∀ j, (j < n)%nat ->
        mockedResponses (mockHttpGetResponses n) !! uri j = Some (mockedResponseBody j)) ∧
  (∀ url, (∀ j, (j < n)%nat -> url ≠ uri j) ->
          mockedResponses (mockHttpGetResponses n) !! url = None).
Proof.
  induction n as [|n (IHu & IHl & IHn)].
  - split_and!; [done|lia|done].
  - rewrite mock_S. split_and!.
    + rewrite seq_S, fmap_app. unfold register; simpl. by rewrite IHu.
    + unfold register; simpl. intros j Hj. destruct (decide (j = n)) as [->|Hne].
      * by rewrite lookup_insert_eq.
      * rewrite lookup_insert_ne by (intros ?%uri_inj; done). apply IHl. lia.
    + unfold register; simpl.
      intros url Hurl. rewrite lookup_insert_ne by (intros <-; by apply (Hurl n); [lia|]).
      apply IHn. intros j Hj. apply Hurl. lia.
Qed.

End HelperFacts.

(** * Further properties *)

(** X1. With a logger that is a function and returns from every call,
    [runningCount] is exactly the number of calls in flight plus the number
    of calls whose provider threw before returning a promise; when no
    provider does that, it is the number of calls in flight. *)
Theorem running_count_is_in_flight_plus_lost (fn : sinks) (o : Limiter.options)
    (w : Limiter.world) :
  callable (Limiter.logger (Limiter.constructor o)) = true ->
  returns_normally fn (Limiter.logger (Limiter.constructor o)) ->
  Limiter.reachable (Limiter.limiter_with fn) (Limiter.fresh (Limiter.constructor o)) w ->
  Limiter.runningCount (Limiter.this (Limiter.mem w)) =
    Z.of_nat (Limiter.in_flight w) + Z.of_nat (LimiterAux.leaked w) ∧
  (Forall (λ t, ∀ e, Limiter.op t ≠ SyncThrow e) (Limiter.tasks w) ->
   Limiter.runningCount (Limiter.this (Limiter.mem w)) = Z.of_nat (Limiter.in_flight w)).
Proof.
  intros Hlg Hq Hr. apply reachable_returns in Hr; [|done].
  apply exact_reachable in Hr as (_ & Hrc & _); [|done..].
  split; [done|]. intros Hops. rewrite Hrc. unfold LimiterAux.leaked.
  rewrite count_tasks_zero; [lia|]. eapply Forall_impl; [exact Hops|].
  intros [op s] Hop. rewrite is_leak_eq. destruct s; try done.
  destruct op; try done. by destruct (Hop e0).
Qed.

Lemma running_count_is_in_flight_plus_lost_witness :
  Limiter.runningCount (Limiter.this (Limiter.mem Scenario.leaked_limiter)) =
    Z.of_nat (Limiter.in_flight Scenario.leaked_limiter) +
    Z.of_nat (LimiterAux.leaked Scenario.leaked_limiter).
Proof.
  assert (callable (Limiter.logger (Limiter.constructor
            (Scenario.limiter_options 1 Scenario.collect))) = true) as Hlg by reflexivity.
  assert (returns_normally Sample.flaky (Limiter.logger (Limiter.constructor
            (Scenario.limiter_options 1 Scenario.collect)))) as Hq
    by (intros calls d; reflexivity).
  assert (Limiter.reachable (Limiter.limiter_with Sample.flaky)
            (Limiter.fresh (Limiter.constructor (Scenario.limiter_options 1 Scenario.collect)))
            Scenario.leaked_limiter) as Hr.
  { apply (run_reachable _ [Limiter.Call (SyncThrow Scenario.boom);
                            Limiter.Call (AsyncFulfil (JNum 1)); Limiter.TimerFired 1]).
    vm_compute. reflexivity. }
  exact (proj1 (running_count_is_in_flight_plus_lost _ _ _ Hlg Hq Hr)).
Defined.

(** X2. With a logger that is a function and returns from every call, a
    call is faithful to its operation in every state the limiter reaches: it
    has resolved only with the value the operation returned or its promise
    fulfilled with; it has rejected only with the error the provider threw,
    or with the error the promise rejected with, which for [null] and
    [undefined] is replaced by the [TypeError] of reading [e.message]; and a
    call awaiting its promise has a provider that did not throw. *)
Theorem schedule_outcome_is_faithful (fn : sinks) (o : Limiter.options) (w : Limiter.world)
    (k : nat) (t : Limiter.task) :
  callable (Limiter.logger (Limiter.constructor o)) = true ->
  returns_normally fn (Limiter.logger (Limiter.constructor o)) ->
  Limiter.reachable (Limiter.limiter_with fn) (Limiter.fresh (Limiter.constructor o)) w ->
  Limiter.tasks w !! k = Some t ->
  match Limiter.state t with
  | Limiter.Waiting => True
  | Limiter.Running => ∀ e, Limiter.op t ≠ SyncThrow e
  | Limiter.Resolved v => Limiter.op t = AsyncFulfil v ∨ Limiter.op t = Returns v
  | Limiter.Rejected e =>
      Limiter.op t = SyncThrow e ∨
      ∃ e', Limiter.op t = AsyncReject e' ∧
            e = if nullish e' then TypeError_read e' "message" else e'
  end.
Proof.
  intros Hlg Hq Hr Hk. apply reachable_returns in Hr; [|done].
  apply exact_reachable in Hr as (_ & _ & Hf); [|done..].
  exact (Forall_lookup_1 _ _ _ _ Hf Hk).
Qed.

Lemma schedule_outcome_is_faithful_witness :
  AsyncReject Scenario.boom = SyncThrow Scenario.boom ∨
  ∃ e', AsyncReject Scenario.boom = AsyncReject e' ∧
        Scenario.boom = if nullish e' then TypeError_read e' "message" else e'.
Proof.
  assert (returns_normally Sample.flaky (Limiter.logger (Limiter.constructor Scenario.capacity2)))
    as Hq by (intros calls d; reflexivity).
  assert (Limiter.reachable (Limiter.limiter_with Sample.flaky)
            (Limiter.fresh (Limiter.constructor Scenario.capacity2)) Scenario.done_limiter) as Hr
    by (apply (run_reachable _ Scenario.three_calls); vm_compute; reflexivity).
  exact (schedule_outcome_is_faithful Sample.flaky Scenario.capacity2 _ 2%nat
           {| Limiter.op := AsyncReject Scenario.boom;
              Limiter.state := Limiter.Rejected Scenario.boom |}
           eq_refl Hq Hr eq_refl).
Defined.

(** X3. As long as no more calls have been made than the capacity, no call
    waits, whatever the logger is and does: none is suspended in the
    admission loop, no timer has been started and no polling diagnostic has
    been logged. *)
Theorem calls_within_capacity_never_wait (fn : sinks) (o : Limiter.options)
    (w : Limiter.world) :
  Limiter.reachable (Limiter.limiter_with fn) (Limiter.fresh (Limiter.constructor o)) w ->
  Z.of_nat (length (Limiter.tasks w)) ≤ Limiter.maxParallel (Limiter.constructor o) ->
  Forall (λ t, Limiter.state t ≠ Limiter.Waiting) (Limiter.tasks w) ∧
  Limiter.timeouts (Limiter.mem w) = [] ∧
  Forall (λ e, polling_diag e.2 = false) (Limiter.log (Limiter.mem w)).
Proof.
  intros Hr Hlen.
  pose proof (within_capacity_any fn (Limiter.constructor o) w eq_refl Hr Hlen)
    as (_ & Hnw & Hti & Hz).
  split_and!; [done..|].
  unfold LimiterAux.polling_count in Hz. apply nil_length_inv in Hz.
  apply Forall_forall. intros e He.
  destruct (polling_diag e.2) eqn:Hp; [|done].
  by destruct (filter_nil_not_elem_of _ _ e Hz).
Qed.

Lemma calls_within_capacity_never_wait_witness :
  Limiter.timeouts (Limiter.mem Scenario.test_mirror) = [].
Proof.
  assert (Limiter.reachable (Limiter.limiter_with Sample.flaky)
            (Limiter.fresh (Limiter.constructor Sample.capacity10)) Scenario.test_mirror) as Hr.
  { apply (run_reachable _ [Limiter.Call (AsyncFulfil (JStr "response")); Limiter.Settled 0;
                            Limiter.Call (AsyncFulfil (JStr "response")); Limiter.Settled 1]).
    vm_compute. reflexivity. }
  assert (Z.of_nat (length (Limiter.tasks Scenario.test_mirror))
          ≤ Limiter.maxParallel (Limiter.constructor Sample.capacity10)) as Hlen
    by (vm_compute; discriminate).
  exact (proj1 (proj2 (calls_within_capacity_never_wait Sample.flaky _ _ Hr Hlen))).
Defined.

(** X4. A burst of calls on a fresh limiter, made one after the other as
    [Promise.all(ops.map(op => limiter.schedule(op)))] does, with providers
    that do not throw and a logger that is a function and returns from every
    call: the calls whose index is below the capacity are running at once,
    every other call is polling with one timer started, and [runningCount]
    is the smaller of the number of calls and the capacity. *)
Theorem burst_admits_up_to_capacity (fn : sinks) (o : Limiter.options) (ops : list behaviour) :
  callable (Limiter.logger (Limiter.constructor o)) = true ->
  returns_normally fn (Limiter.logger (Limiter.constructor o)) ->
  Forall (λ op, ∀ e, op ≠ SyncThrow e) ops ->
  ∃ w,
    Limiter.run (Limiter.limiter_with fn) (LimiterAux.burst ops)
      (Limiter.fresh (Limiter.constructor o)) = Some w ∧
    length (Limiter.tasks w) = length ops ∧
    (∀ i op, ops !! i = Some op ->
       Limiter.tasks w !! i =
         Some {| Limiter.op := op;
                 Limiter.state :=
                   if bool_decide (Z.of_nat i < Limiter.maxParallel (Limiter.constructor o))
                   then Limiter.Running else Limiter.Waiting |}) ∧
    Limiter.runningCount (Limiter.this (Limiter.mem w)) =
      Z.min (Z.of_nat (length ops)) (Z.max 0 (Limiter.maxParallel (Limiter.constructor o))) ∧
    length (Limiter.timeouts (Limiter.mem w)) =
      (length ops - Z.to_nat (Limiter.maxParallel (Limiter.constructor o)))%nat.
Proof.
  intros Hlg Hq Hops.
  destruct (burst_run (Limiter.constructor o) ops eq_refl Hlg Hops)
    as (w & Hrun & _ & Hrc & Hlen & Hts & Hti).
  exists w. rewrite (run_returns fn (Limiter.constructor o)) by (done || apply rtc_refl).
  by split_and!.
Qed.

Lemma burst_admits_up_to_capacity_witness :
  ∃ w,
    Limiter.run (Limiter.limiter_with Sample.flaky) (LimiterAux.burst Sample.three_ops)
      (Limiter.fresh (Limiter.constructor Scenario.capacity2)) = Some w ∧
    Limiter.runningCount (Limiter.this (Limiter.mem w)) = 2 ∧
    length (Limiter.timeouts (Limiter.mem w)) = 1%nat.
Proof.
  assert (returns_normally Sample.flaky (Limiter.logger (Limiter.constructor Scenario.capacity2)))
    as Hq by (intros calls d; reflexivity).
  assert (Forall (λ op, ∀ e, op ≠ SyncThrow e) Sample.three_ops) as Hops
    by (repeat constructor; discriminate).
  destruct (burst_admits_up_to_capacity Sample.flaky Scenario.capacity2 Sample.three_ops
              eq_refl Hq Hops) as (w & Hrun & _ & _ & Hrc & Hti).
  exists w. split_and!; [exact Hrun|exact Hrc|exact Hti].
Defined.

(** X5. With a capacity of at least one and a logger that is a function and
    returns from every call, no state the limiter reaches is stuck: when the
    operations of the calls made so far all return a value or a promise that
    settles, the event loop that resumes such calls first and otherwise lets
    the timer of the first polling call fire completes every one of them,
    each with the outcome of its operation, and leaves [runningCount] at
    zero. *)
Theorem eager_loop_completes_every_call (fn : sinks) (o : Limiter.options) (w : Limiter.world) :
  1 ≤ Limiter.maxParallel (Limiter.constructor o) ->
  callable (Limiter.logger (Limiter.constructor o)) = true ->
  returns_normally fn (Limiter.logger (Limiter.constructor o)) ->
  Limiter.reachable (Limiter.limiter_with fn) (Limiter.fresh (Limiter.constructor o)) w ->
  Forall (λ t, is_Some (resumption (Limiter.op t))) (Limiter.tasks w) ->
  let w' := LimiterAux.drive (Limiter.limiter_with fn) (LimiterAux.rank w) w in
  Limiter.reachable (Limiter.limiter_with fn) w w' ∧
  Limiter.tasks w' =
    (λ t, {| Limiter.op := Limiter.op t;
             Limiter.state := LimiterAux.outcome_of (Limiter.op t) |}) <$> Limiter.tasks w ∧
  Limiter.runningCount (Limiter.this (Limiter.mem w')) = 0.
Proof.
  intros Hcap Hlg Hq Hr Hset. cbv zeta.
  assert (∀ n w1, Limiter.reachable (Limiter.limiter_with fn) w1
                    (LimiterAux.drive (Limiter.limiter_with fn) n w1)) as Hdrive.
  { induction n as [|n IH]; intros w1; simpl; [apply rtc_refl|].
    destruct (LimiterAux.next_event w1) as [ev|]; [|apply rtc_refl].
    destruct (Limiter.step _ ev w1) as [w2|] eqn:Hs; [|apply rtc_refl].
    eapply rtc_l; [by exists ev|apply IH]. }
  split; [apply Hdrive|].
  apply reachable_returns in Hr; [|done].
  rewrite (drive_returns fn (Limiter.constructor o)) by done.
  pose proof (exact_reachable (Limiter.constructor o) w eq_refl Hlg Hr) as Hex.
  destruct (drive_spec _ _ w Hlg Hcap Hex Hset (le_n _)) as (Hex' & Hrank & Hops & Hreach).
  set (w' := LimiterAux.drive Limiter.parallelLimiter (LimiterAux.rank w) w) in *.
  pose proof (same_ops_settle _ _ Hops Hset) as Hset'.
  destruct Hex' as (_ & Hrc & Hf).
  unfold LimiterAux.rank, LimiterAux.waiting in Hrank.
  assert (LimiterAux.count_tasks LimiterAux.is_waiting (Limiter.tasks w') = 0%nat) as Hw by lia.
  assert (Limiter.in_flight w' = 0%nat) as Hi by lia.
  split.
  - rewrite <- (same_ops_same_outcomes _ _ Hops). by apply completed_tasks.
  - rewrite Hrc, Hi. unfold LimiterAux.leaked. by rewrite settling_no_leak.
Qed.

Lemma eager_loop_completes_every_call_witness :
  Limiter.tasks (LimiterAux.drive (Limiter.limiter_with Sample.flaky)
                   (LimiterAux.rank Scenario.busy_limiter) Scenario.busy_limiter) =
    [ {| Limiter.op := AsyncFulfil (JNum 42); Limiter.state := Limiter.Resolved (JNum 42) |};
      {| Limiter.op := AsyncFulfil (JStr "b"); Limiter.state := Limiter.Resolved (JStr "b") |};
      {| Limiter.op := AsyncReject Scenario.boom;
         Limiter.state := Limiter.Rejected Scenario.boom |} ].
Proof.
  assert (1 ≤ Limiter.maxParallel (Limiter.constructor Scenario.capacity2)) as Hcap
    by (simpl; lia).
  assert (returns_normally Sample.flaky (Limiter.logger (Limiter.constructor Scenario.capacity2)))
    as Hq by (intros calls d; reflexivity).
  assert (Limiter.reachable (Limiter.limiter_with Sample.flaky)
            (Limiter.fresh (Limiter.constructor Scenario.capacity2)) Scenario.busy_limiter) as Hr
    by (apply (run_reachable _ (take 5 Scenario.three_calls)); vm_compute; reflexivity).
  assert (Forall (λ t, is_Some (resumption (Limiter.op t)))
            (Limiter.tasks Scenario.busy_limiter)) as Hset
    by (vm_compute; repeat constructor; by eexists).
  destruct (eager_loop_completes_every_call Sample.flaky Scenario.capacity2 _
              Hcap eq_refl Hq Hr Hset) as (_ & Hts & _).
  rewrite Hts. vm_compute. reflexivity.
Defined.

(** X6. With a logger that returns from every call, the numbers in the
    diagnostics of a limiter are sound.  A
    ["Started Promise (r/m running)"] has [1 <= r <= m]; a
    ["Finalized Promise"] or ["Failed Promise"] has [0 <= r < m]; a
    ["Max parallel count reached (r), waiting for t ms"] has [r] at least
    the capacity and [t] the configured [retryMs], and is only logged with
    [logRetries] on; [m] is always the configured [maxParallel]. *)
Theorem diagnostics_are_sound (fn : sinks) (o : Limiter.options) (w : Limiter.world)
    (id : nat) (d : diag) :
  returns_normally fn (Limiter.logger (Limiter.constructor o)) ->
  Limiter.reachable (Limiter.limiter_with fn) (Limiter.fresh (Limiter.constructor o)) w ->
  (id, d) ∈ Limiter.log (Limiter.mem w) ->
  match d with
  | MaxParallelReached running retry =>
      Limiter.maxParallel (Limiter.constructor o) ≤ running ∧
      retry = Limiter.retryMs (Limiter.constructor o) ∧
      Limiter.logRetries (Limiter.constructor o) = true
  | StartedPromise running max =>
      1 ≤ running ≤ max ∧ max = Limiter.maxParallel (Limiter.constructor o)
  | FinalizedPromise running max | FailedPromise running max _ =>
      0 ≤ running < max ∧ max = Limiter.maxParallel (Limiter.constructor o)
  | RunningJobs _ _ _ _ | StartedJob _ _ _ | WaitingForRuns _ _ => False
  end.
Proof.
  intros Hq Hr Hin. apply reachable_returns in Hr; [|done].
  pose proof (traced_reachable (Limiter.constructor o) w eq_refl Hr) as (Hlog & _).
  exact (proj1 (Forall_forall _ _) Hlog _ Hin).
Qed.

Lemma diagnostics_are_sound_witness :
  0 ≤ 0 < 1 ∧ 1 = Limiter.maxParallel (Limiter.constructor (Scenario.limiter_options 1 Scenario.console)).
Proof.
  assert (returns_normally Sample.flaky
            (Limiter.logger (Limiter.constructor (Scenario.limiter_options 1 Scenario.console))))
    as Hq by (intros calls d; reflexivity).
  assert (Limiter.reachable (Limiter.limiter_with Sample.flaky)
            (Limiter.fresh (Limiter.constructor (Scenario.limiter_options 1 Scenario.console)))
            Scenario.console_limiter) as Hr
    by (apply (run_reachable _ Scenario.three_calls); vm_compute; reflexivity).
  assert ((2%nat, FinalizedPromise 0 1) ∈ Limiter.log (Limiter.mem Scenario.console_limiter))
    as Hin by (vm_compute; do 4 apply list_elem_of_further; apply list_elem_of_here).
  exact (diagnostics_are_sound Sample.flaky _ _ _ _ Hq Hr Hin).
Defined.

(** X7. Every timer a limiter starts has the configured delay [retryMs],
    whatever the logger is and does.  With [logRetries] off there is no
    polling diagnostic; with [logRetries] on every timer has its polling
    diagnostic, and there is exactly one polling diagnostic per timer when
    the logger returns from every call. *)
Theorem timers_and_polling_diagnostics (fn : sinks) (o : Limiter.options)
    (w : Limiter.world) :
  Limiter.reachable (Limiter.limiter_with fn) (Limiter.fresh (Limiter.constructor o)) w ->
  Forall (λ delay, delay = Limiter.retryMs (Limiter.constructor o))
         (Limiter.timeouts (Limiter.mem w)) ∧
  (Limiter.logRetries (Limiter.constructor o) = false ->
   LimiterAux.polling_count (Limiter.log (Limiter.mem w)) = 0%nat) ∧
  (Limiter.logRetries (Limiter.constructor o) = true ->
   (length (Limiter.timeouts (Limiter.mem w))
    ≤ LimiterAux.polling_count (Limiter.log (Limiter.mem w)))%nat) ∧
  (returns_normally fn (Limiter.logger (Limiter.constructor o)) ->
   LimiterAux.polling_count (Limiter.log (Limiter.mem w)) =
     (if Limiter.logRetries (Limiter.constructor o)
      then length (Limiter.timeouts (Limiter.mem w)) else 0)%nat).
Proof.
  intros Hr.
  pose proof (polls_reachable fn (Limiter.constructor o) w eq_refl Hr) as (? & ? & ?).
  split_and!; [done..|]. intros Hq. apply reachable_returns in Hr; [|done].
  by pose proof (traced_reachable (Limiter.constructor o) w eq_refl Hr) as (_ & _ & ?).
Qed.

Lemma timers_and_polling_diagnostics_witness :
  Forall (λ delay, delay = 10) (Limiter.timeouts (Limiter.mem Scenario.busy_limiter)) ∧
  LimiterAux.polling_count (Limiter.log (Limiter.mem Scenario.busy_limiter)) =
    length (Limiter.timeouts (Limiter.mem Scenario.busy_limiter)).
Proof.
  assert (returns_normally Sample.flaky (Limiter.logger (Limiter.constructor Scenario.capacity2)))
    as Hq by (intros calls d; reflexivity).
  assert (Limiter.reachable (Limiter.limiter_with Sample.flaky)
            (Limiter.fresh (Limiter.constructor Scenario.capacity2)) Scenario.busy_limiter) as Hr
    by (apply (run_reachable _ (take 5 Scenario.three_calls)); vm_compute; reflexivity).
  destruct (timers_and_polling_diagnostics Sample.flaky Scenario.capacity2 _ Hr)
    as (Ht & _ & _ & Hp).
  split; [exact Ht|exact (Hp Hq)].
Defined.

(** X8. When the sink the constructor selects is not a function (a
    console-like object without [debug], say), no [schedule] call ever
    invokes its operation or logs anything: in every state the limiter
    reaches each call is polling or has rejected with the [TypeError] of
    calling [this.logger]. *)
Theorem uncallable_sink_runs_nothing (fn : sinks) (o : Limiter.options) (w : Limiter.world) :
  callable (Limiter.logger (Limiter.constructor o)) = false ->
  Limiter.reachable (Limiter.limiter_with fn) (Limiter.fresh (Limiter.constructor o)) w ->
  Limiter.invoked (Limiter.mem w) = [] ∧ Limiter.log (Limiter.mem w) = [] ∧
  Forall (λ t, Limiter.state t = Limiter.Waiting ∨
               Limiter.state t = Limiter.Rejected (TypeError_call "this.logger"))
         (Limiter.tasks w).
Proof.
  intros Hlg Hr. apply reachable_returns in Hr; [|by apply not_callable_returns].
  by apply uncallable_reachable in Hr as (_ & ? & ? & ?).
Qed.

Lemma uncallable_sink_runs_nothing_witness :
  Limiter.invoked (Limiter.mem Sample.no_sink_world) = [].
Proof.
  assert (Limiter.reachable (Limiter.limiter_with Sample.flaky)
            (Limiter.fresh (Limiter.constructor Sample.no_sink)) Sample.no_sink_world) as Hr.
  { apply (run_reachable _ [Limiter.Call (AsyncFulfil (JNum 1));
                            Limiter.Call (AsyncFulfil (JNum 2))]).
    vm_compute. reflexivity. }
  exact (proj1 (uncallable_sink_runs_nothing Sample.flaky Sample.no_sink _ eq_refl Hr)).
Defined.

(** X9. As long as a list of events makes no more [schedule] calls than the
    capacity, a [ParallelLimiter] with a logger that is a function and
    returns from every call goes through it exactly as [noLimiter] does: the
    same events are possible, the same operations are invoked in the same
    order, and every call has the same state, except that a promise rejected
    with [null] or [undefined] is reported as the [TypeError] of reading
    [e.message]. *)
Theorem within_capacity_mirrors_noLimiter (fn : sinks) (o : Limiter.options)
    (evs : list Limiter.event) :
  callable (Limiter.logger (Limiter.constructor o)) = true ->
  returns_normally fn (Limiter.logger (Limiter.constructor o)) ->
  Z.of_nat (LimiterAux.calls evs) ≤ Limiter.maxParallel (Limiter.constructor o) ->
  LimiterAux.agree
    (λ w w', Limiter.tasks w = LimiterAux.as_scheduled <$> Limiter.tasks w' ∧
             Limiter.invoked (Limiter.mem w) = Limiter.invoked (Limiter.mem w'))
    (Limiter.run (Limiter.limiter_with fn) evs (Limiter.fresh (Limiter.constructor o)))
    (Limiter.run Limiter.noLimiter evs (Limiter.fresh (Limiter.constructor o))).
Proof.
  intros Hlg Hq Hcalls.
  rewrite (run_returns fn (Limiter.constructor o)) by (done || apply rtc_refl).
  pose proof (alongside_run (Limiter.constructor o) evs
                (Limiter.fresh (Limiter.constructor o))
                (Limiter.fresh (Limiter.constructor o)) Hlg) as H.
  unfold LimiterAux.agree in *.
  destruct (Limiter.run Limiter.parallelLimiter _ _), (Limiter.run Limiter.noLimiter _ _);
    try done; try (apply H; [|done]; unfold LimiterAux.alongside, Limiter.same_config; by simpl).
  destruct H as (_ & _ & ? & ? & _); [|done|done].
  unfold LimiterAux.alongside, Limiter.same_config; by simpl.
Qed.

Lemma within_capacity_mirrors_noLimiter_witness :
  LimiterAux.agree
    (λ w w', Limiter.tasks w = LimiterAux.as_scheduled <$> Limiter.tasks w' ∧
             Limiter.invoked (Limiter.mem w) = Limiter.invoked (Limiter.mem w'))
    (Limiter.run (Limiter.limiter_with Sample.flaky) Sample.two_calls
       (Limiter.fresh (Limiter.constructor Sample.capacity10)))
    (Limiter.run Limiter.noLimiter Sample.two_calls
       (Limiter.fresh (Limiter.constructor Sample.capacity10))).
Proof.
  assert (returns_normally Sample.flaky (Limiter.logger (Limiter.constructor Sample.capacity10)))
    as Hq by (intros calls d; reflexivity).
  assert (Z.of_nat (LimiterAux.calls Sample.two_calls)
          ≤ Limiter.maxParallel (Limiter.constructor Sample.capacity10)) as Hcalls
    by (vm_compute; discriminate).
  exact (within_capacity_mirrors_noLimiter Sample.flaky Sample.capacity10 Sample.two_calls
           eq_refl Hq Hcalls).
Defined.

(** X10. Whatever the logger is and does, [schedule] changes nothing of a
    limiter but [runningCount]: [maxParallel], [retryMs], [logger] and
    [logRetries] are in every state what the constructor set, and
    [runningCount] is never above the capacity (above zero, for a capacity
    below zero).  With a logger that returns from every call,
    [runningCount] is never negative either. *)
Theorem configuration_is_fixed (fn : sinks) (o : Limiter.options) (w : Limiter.world) :
  Limiter.reachable (Limiter.limiter_with fn) (Limiter.fresh (Limiter.constructor o)) w ->
  Limiter.maxParallel (Limiter.this (Limiter.mem w)) = Limiter.maxParallel (Limiter.constructor o) ∧
  Limiter.retryMs (Limiter.this (Limiter.mem w)) = Limiter.retryMs (Limiter.constructor o) ∧
  Limiter.logger (Limiter.this (Limiter.mem w)) = Limiter.logger (Limiter.constructor o) ∧
  Limiter.logRetries (Limiter.this (Limiter.mem w)) = Limiter.logRetries (Limiter.constructor o) ∧
  Limiter.runningCount (Limiter.this (Limiter.mem w))
    ≤ Z.max 0 (Limiter.maxParallel (Limiter.constructor o)) ∧
  (returns_normally fn (Limiter.logger (Limiter.constructor o)) ->
   0 ≤ Limiter.runningCount (Limiter.this (Limiter.mem w))).
Proof.
  intros Hr.
  pose proof (config_reachable fn (Limiter.constructor o) w eq_refl Hr)
    as ((? & ? & ? & ?) & ?).
  split_and!; try done. intros Hq.
  apply reachable_returns in Hr; [|done].
  apply limiter_inv_reachable in Hr as (_ & ? & _); [|done]. lia.
Qed.

Lemma configuration_is_fixed_witness :
  Limiter.maxParallel (Limiter.this (Limiter.mem Sample.strict_done)) = 1 ∧
  Limiter.runningCount (Limiter.this (Limiter.mem Sample.strict_done)) ≤ 1.
Proof.
  assert (Limiter.reachable (Limiter.limiter_with Sample.flaky)
            (Limiter.fresh (Limiter.constructor Sample.strict)) Sample.strict_done) as Hr.
  { apply (run_reachable _ [Limiter.Call (AsyncFulfil (JNum 1)); Limiter.Settled 0]).
    vm_compute. reflexivity. }
  destruct (configuration_is_fixed Sample.flaky Sample.strict _ Hr) as (Hm & _ & _ & _ & Hle & _).
  split; [exact Hm|exact Hle].
Defined.

(** X11. Once the batch has resolved nothing happens to it any more: no
    timer of the call and no handler of a job is left to run, so the array
    it returned is never changed afterwards. *)
Theorem resolved_batch_is_final (a : Batch.arguments) (w : Batch.world) :
  Batch.reachable a w -> Batch.main w = Batch.Resolved ->
  Batch.pending (Batch.mem w) = [] ∧ ∀ ev, Batch.step a ev w = None.
Proof.
  intros Hr Hm. apply batch_inv_reachable in Hr. unfold Batch.batch_inv in Hr.
  rewrite Hm in Hr. destruct Hr as [_ Hp]. split; [done|].
  intros [|j]; simpl; by rewrite ?Hm, ?Hp.
Qed.

Lemma resolved_batch_is_final_witness :
  Batch.step Scenario.mixed (Batch.Settled 0) Scenario.mixed_resolved = None.
Proof.
  assert (Batch.reachable Scenario.mixed Scenario.mixed_resolved) as Hr.
  { apply (batch_run_reachable _
             [Batch.Settled 1; Batch.TimerFired; Batch.Settled 2; Batch.Settled 0;
              Batch.TimerFired]).
    vm_compute. reflexivity. }
  assert (Batch.main Scenario.mixed_resolved = Batch.Resolved) as Hm
    by (vm_compute; reflexivity).
  exact (proj2 (resolved_batch_is_final _ _ Hr Hm) (Batch.Settled 0)).
Defined.

(** X12. The operations of the jobs are invoked in input order, each at most
    once: in every state of a batch the jobs invoked so far are exactly the
    first [k] jobs, where [k] is the index the call is waiting at, and the
    number of jobs once the call is in the drain loop or has resolved. *)
Theorem jobs_start_in_input_order (a : Batch.arguments) (w : Batch.world) :
  Batch.reachable a w ->
  ∃ k, Batch.invoked (Batch.mem w) = seq 0 k ∧ (k ≤ length (Batch.jobs a))%nat ∧
       match Batch.main w with
       | Batch.AdmissionWait i => k = i
       | Batch.DrainWait | Batch.Resolved => k = length (Batch.jobs a)
       | Batch.Rejected _ => True
       end.
Proof. apply started_reachable. Qed.

Lemma jobs_start_in_input_order_witness :
  ∃ k, Batch.invoked (Batch.mem Scenario.mixed_running) = seq 0 k ∧ k = 2%nat.
Proof.
  assert (Batch.reachable Scenario.mixed Scenario.mixed_running) as Hr
    by (apply (batch_run_reachable _ [Batch.Settled 1]); vm_compute; reflexivity).
  destruct (jobs_start_in_input_order _ _ Hr) as (k & Hk & _ & Hm).
  exists k. split; [exact Hk|exact Hm].
Defined.

(** X13. A batch with a job whose operation throws before returning a
    promise, or whose promise never settles, never resolves. *)
Theorem unsettled_job_blocks_resolution (a : Batch.arguments) (w : Batch.world)
    (job : jsval) :
  Batch.reachable a w -> job ∈ Batch.jobs a ->
  settlement (Batch.jobToPromise a job) = None ->
  Batch.main w ≠ Batch.Resolved.
Proof.
  intros Hr Hjob Hnone Hm. apply batch_inv_reachable in Hr.
  destruct (resolved_records _ _ Hr Hm) as (_ & (rs & Hall & _) & _).
  apply list_elem_of_lookup in Hjob as [i Hi].
  destruct (Forall2_lookup_l _ _ _ _ _ Hall Hi) as (r & _ & Hrec).
  unfold Batch.settled_record in Hrec. by destruct (Batch.jobToPromise a job).
Qed.

Lemma unsettled_job_blocks_resolution_witness :
  Batch.main (Batch.allSettledParallelLimited Scenario.throwing) ≠ Batch.Resolved.
Proof.
  assert (JNum 2 ∈ Batch.jobs Scenario.throwing) as Hjob by apply list_elem_of_here.
  exact (unsettled_job_blocks_resolution Scenario.throwing _ (JNum 2)
           (rtc_refl _ _) Hjob eq_refl).
Defined.

(** X14. [allSettledParallelLimited] calls [logger] itself, not its [debug]
    method: given a logger that is not a function (a console-like object, or
    [null]) and at least one job it has room for, the call rejects with the
    [TypeError] of calling [logger] before any job's operation is invoked. *)
Theorem uncallable_logger_rejects_batch (o : Batch.options) :
  Batch.opt_jobs o ≠ [] -> 1 ≤ Batch.opt_maxParallel o ->
  callable (default_param (Batch.opt_logger o) noop_logger) = false ->
  Batch.main (Batch.allSettledParallelLimited (Batch.destructure o)) =
    Batch.Rejected (TypeError_call "logger") ∧
  Batch.invoked (Batch.mem (Batch.allSettledParallelLimited (Batch.destructure o))) = [] ∧
  Batch.runs (Batch.mem (Batch.allSettledParallelLimited (Batch.destructure o))) = [].
Proof.
  intros Hjobs Hcap Hlg. unfold Batch.allSettledParallelLimited.
  destruct (Batch.jobs (Batch.destructure o)) as [|job rest] eqn:Hj; [done|].
  rewrite for_loop_cons, geb_false by (simpl; lia).
  change (Batch.logger (Batch.destructure o))
    with (default_param (Batch.opt_logger o) noop_logger).
  by destruct (default_param (Batch.opt_logger o) noop_logger).
Qed.

Lemma uncallable_logger_rejects_batch_witness :
  Batch.main (Batch.allSettledParallelLimited (Batch.destructure Sample.console_batch)) =
    Batch.Rejected (TypeError_call "logger").
Proof.
  assert (Batch.opt_jobs Sample.console_batch ≠ []) as Hjobs by discriminate.
  assert (1 ≤ Batch.opt_maxParallel Sample.console_batch) as Hcap by (simpl; lia).
  exact (proj1 (uncallable_logger_rejects_batch Sample.console_batch Hjobs Hcap eq_refl)).
Defined.

(** X15. [runs] only grows: whatever happens between two states of a batch,
    the records of the earlier state are still there, in the same places,
    in the later one. *)
Theorem runs_only_grows (a : Batch.arguments) (w w' : Batch.world) :
  rtc (λ x y, ∃ ev, Batch.step a ev x = Some y) w w' ->
  Batch.runs (Batch.mem w) `prefix_of` Batch.runs (Batch.mem w').
Proof.
  induction 1 as [|x y z [ev Hev] _ IH]; [done|].
  etrans; [by eapply step_runs_prefix|done].
Qed.

Lemma runs_only_grows_witness :
  Batch.runs (Batch.mem Scenario.mixed_running)
    `prefix_of` Batch.runs (Batch.mem Scenario.mixed_resolved).
Proof.
  apply (runs_only_grows Scenario.mixed).
  apply (batch_run_steps _
           [Batch.TimerFired; Batch.Settled 2; Batch.Settled 0; Batch.TimerFired]).
  vm_compute. reflexivity.
Defined.

(** X16. What the test of [allSettledParallelLimited] asserts: when the
    promise of every job fulfils, a resolved batch has one record per job and
    every record has status ['fulfilled'] and no [reason]. *)
Theorem all_fulfilled_batch (a : Batch.arguments) (w : Batch.world) :
  (∀ job, job ∈ Batch.jobs a -> ∃ v, Batch.jobToPromise a job = AsyncFulfil v) ->
  Batch.reachable a w -> Batch.main w = Batch.Resolved ->
  length (Batch.runs (Batch.mem w)) = length (Batch.jobs a) ∧
  Forall (λ r, Batch.status r = "fulfilled" ∧ is_Some (Batch.value r) ∧ Batch.reason r = None)
         (Batch.runs (Batch.mem w)).
Proof.
  intros Hall Hr Hm. apply batch_inv_reachable in Hr.
  destruct (resolved_records _ _ Hr Hm) as (Hlen & (rs & Hrs & Hperm) & _).
  split; [done|]. rewrite Hperm. eapply Forall2_Forall_r; [exact Hrs|].
  apply Forall_forall. intros job Hjob r. destruct (Hall job Hjob) as [v Hv].
  unfold Batch.settled_record. rewrite Hv. intros [= <-]. simpl. by split_and!.
Qed.

Lemma all_fulfilled_batch_witness :
  length (Batch.runs (Batch.mem Sample.downloads_done)) = 3%nat.
Proof.
  assert (∀ job, job ∈ Batch.jobs Sample.downloads ->
                 ∃ v, Batch.jobToPromise Sample.downloads job = AsyncFulfil v) as Hall.
  { intros job Hjob. simpl in Hjob.
    repeat (apply elem_of_cons in Hjob as [->|Hjob]; [by eexists|]).
    by apply elem_of_nil in Hjob. }
  assert (Batch.reachable Sample.downloads Sample.downloads_done) as Hr
    by (apply (batch_run_reachable _ Sample.downloads_events); vm_compute; reflexivity).
  assert (Batch.main Sample.downloads_done = Batch.Resolved) as Hm by (vm_compute; reflexivity).
  exact (proj1 (all_fulfilled_batch _ _ Hall Hr Hm)).
Defined.

(** X17. With [maxParallel = 1] the jobs run one at a time and the records
    come out in input order: while the call has not rejected, [runs] holds
    the records of the first jobs in the order of the jobs, and on
    resolution the record at each index is the one of the job at that
    index. *)
Theorem capacity_one_keeps_input_order (a : Batch.arguments) (w : Batch.world) :
  Batch.maxParallel a = 1 -> Batch.reachable a w ->
  (∀ e, Batch.main w ≠ Batch.Rejected e) ->
  Forall2 (λ job r, Batch.settled_record a job = Some r)
          (take (length (Batch.runs (Batch.mem w))) (Batch.jobs a))
          (Batch.runs (Batch.mem w)) ∧
  (Batch.main w = Batch.Resolved ->
   Forall2 (λ job r, Batch.settled_record a job = Some r)
           (Batch.jobs a) (Batch.runs (Batch.mem w))).
Proof.
  intros Hcap Hr Hrej.
  pose proof (serial_reachable _ _ Hcap Hr) as Hs.
  pose proof (batch_inv_reachable _ _ Hr) as Hinv.
  assert (∀ i, BatchAux.serial_inv a i (Batch.mem w) ->
            ∃ k, (k ≤ length (Batch.jobs a))%nat ∧
                 (Batch.pending (Batch.mem w) = [] -> k = i) ∧
                 Forall2 (λ job r, Batch.settled_record a job = Some r)
                         (take k (Batch.jobs a)) (Batch.runs (Batch.mem w))) as Hgo.
  { intros i (Hi & _ & [[Hp H]|(i' & -> & Hp & H)]).
    - exists i. by split_and!.
    - exists i'. split_and!; [lia| |done]. by rewrite Hp. }
  assert (∀ k, (k ≤ length (Batch.jobs a))%nat ->
            Forall2 (λ job r, Batch.settled_record a job = Some r)
                    (take k (Batch.jobs a)) (Batch.runs (Batch.mem w)) ->
            length (Batch.runs (Batch.mem w)) = k) as Hlen.
  { intros k Hk H%Forall2_length. rewrite length_take in H. lia. }
  unfold BatchAux.serial, Batch.batch_inv in *.
  destruct (Batch.main w) eqn:Hm.
  - destruct Hs as [_ Hs]. destruct (Hgo _ Hs) as (k & Hk & _ & H).
    split; [|done]. by rewrite (Hlen k Hk H).
  - destruct (Hgo _ Hs) as (k & Hk & _ & H).
    split; [|done]. by rewrite (Hlen k Hk H).
  - destruct Hinv as [_ Hp]. destruct (Hgo _ Hs) as (k & Hk & Hki & H).
    rewrite (Hki Hp), take_ge in H by done.
    split; [|done].
    assert (length (Batch.runs (Batch.mem w)) = length (Batch.jobs a)) as ->
      by (symmetry; by eapply Forall2_length).
    by rewrite take_ge.
  - by destruct (Hrej e).
Qed.

Lemma capacity_one_keeps_input_order_witness :
  Forall2 (λ job r, Batch.settled_record Sample.downloads job = Some r)
          (Batch.jobs Sample.downloads) (Batch.runs (Batch.mem Sample.downloads_done)).
Proof.
  assert (Batch.reachable Sample.downloads Sample.downloads_done) as Hr
    by (apply (batch_run_reachable _ Sample.downloads_events); vm_compute; reflexivity).
  assert (∀ e, Batch.main Sample.downloads_done ≠ Batch.Rejected e) as Hrej
    by (intros e; vm_compute; discriminate).
  exact (proj2 (capacity_one_keeps_input_order Sample.downloads _ eq_refl Hr Hrej) eq_refl).
Defined.

(** X18. [mockHttpGetResponses] lists one URI per job index, in index order,
    and no two of them are the same. *)
Theorem mock_uris_are_distinct (runInParallel : nat) :
  Helpers.uris (Helpers.mockHttpGetResponses runInParallel) =
    Helpers.uri <$> seq 0 runInParallel ∧
  length (Helpers.uris (Helpers.mockHttpGetResponses runInParallel)) = runInParallel ∧
  NoDup (Helpers.uris (Helpers.mockHttpGetResponses runInParallel)).
Proof.
  destruct (mock_inv runInParallel) as (Hu & _). rewrite Hu.
  split_and!; [done|by rewrite length_fmap, length_seq|].
  apply NoDup_fmap_2; [|apply NoDup_seq]. intros i j. apply uri_inj.
Qed.

(** X19. The mocked responses can be read back by URI: the URI of a job
    index below the count maps to the body built for that index (a later
    index never overwrites an earlier one), and the URI of any other index
    has no response. *)
Theorem mock_responses_read_back (runInParallel jobIndex : nat) :
  Helpers.serve (Helpers.mockHttpGetResponses runInParallel) (Helpers.uri jobIndex) =
    if decide (jobIndex < runInParallel)%nat
    then Some (Helpers.mockedResponseBody jobIndex) else None.
Proof.
  destruct (mock_inv runInParallel) as (_ & Hl & Hn). unfold Helpers.serve.
  case_decide as Hj; [by apply Hl|].
  apply Hn. intros j Hlt Heq%uri_inj. lia.
Qed.



(** Afterwards [runningCount] is one too low: the next two calls are both
    launched, and two operations are in flight on a limiter of capacity
    one. *)
Example throwing_logger_overbooks :
  Limiter.in_flight Sample.strict_overbooked = 2%nat ∧
  Limiter.runningCount (Limiter.this (Limiter.mem Sample.strict_overbooked)) = 1 ∧
  Limiter.log (Limiter.mem Sample.strict_overbooked) =
    [ (7%nat, StartedPromise 1 1); (7%nat, FinalizedPromise 0 1);
      (7%nat, FailedPromise (-1) 1 (JStr "sink failed"));
      (7%nat, StartedPromise 0 1); (7%nat, StartedPromise 1 1) ].
Proof. split_and!; vm_compute; reflexivity. Qed.

(** X21. When the logger throws on the ["Started Promise"] message of a call
    that has room, the call rejects with what the logger threw, its
    operation is not invoked, and the slot it took is not given back:
    [runningCount] stays incremented. *)
Theorem throwing_logger_loses_slot (fn : sinks) (w : Limiter.world) (o : behaviour)
    (e : jsval) (id : nat) (ps : list (string * jsval)) :
  Limiter.logger (Limiter.this (Limiter.mem w)) = JFun id ps ->
  Limiter.runningCount (Limiter.this (Limiter.mem w))
    < Limiter.maxParallel (Limiter.this (Limiter.mem w)) ->
  fn id (Limiter.log (Limiter.mem w))
     (StartedPromise (Limiter.runningCount (Limiter.this (Limiter.mem w)) + 1)
        (Limiter.maxParallel (Limiter.this (Limiter.mem w)))) = Some e ->
  ∃ w',
    Limiter.step (Limiter.limiter_with fn) (Limiter.Call o) w = Some w' ∧
    Limiter.tasks w' =
      Limiter.tasks w ++ [ {| Limiter.op := o; Limiter.state := Limiter.Rejected e |} ] ∧
    Limiter.runningCount (Limiter.this (Limiter.mem w')) =
      Limiter.runningCount (Limiter.this (Limiter.mem w)) + 1 ∧
    Limiter.invoked (Limiter.mem w') = Limiter.invoked (Limiter.mem w) ∧
    ∀ ev, Limiter.step (Limiter.limiter_with fn) ev w' ≠ None ->
          ev ≠ Limiter.Settled (length (Limiter.tasks w)) ∧
          ev ≠ Limiter.TimerFired (length (Limiter.tasks w)).
Proof.
  intros Hlg Hroom Hfn. destruct w as [[[mx rt lg lr rc] lo ti iv] ts]; simpl in *.
  subst lg. unfold Limiter.schedule, Limiter.call_logger, Limiter.invoke. js_unfold. simpl.
  rewrite geb_false by done. simpl.
  change (Z.succ rc) with (rc + 1). rewrite Hfn. simpl.
  eexists. split_and!; [done|done|done|done|].
  intros ev Hev. split; intros ->; simpl in Hev;
    by rewrite lookup_app_r, Nat.sub_diag in Hev.
Qed.

Lemma throwing_logger_loses_slot_witness :
  Limiter.tasks Sample.deaf_called =
    [ {| Limiter.op := AsyncFulfil (JNum 1);
         Limiter.state := Limiter.Rejected Sample.sink_failed |} ] ∧
  Limiter.runningCount (Limiter.this (Limiter.mem Sample.deaf_called)) = 1 ∧
  Limiter.invoked (Limiter.mem Sample.deaf_called) = [].
Proof.
  assert (0 < 1) as Hroom by lia.
  destruct (throwing_logger_loses_slot Sample.flaky
              (Limiter.fresh (Limiter.constructor Sample.deaf))
              (AsyncFulfil (JNum 1)) Sample.sink_failed 8%nat [] eq_refl Hroom eq_refl)
    as (w' & Hs & Hts & Hrc & Hi & _).
  assert (w' = Sample.deaf_called) as -> by (vm_compute in Hs; by injection Hs as <-).
  split_and!; [exact Hts|exact Hrc|exact Hi].
Defined.


